(** * bravado.mapping.operation: a shallow embedding and its properties

    The module [bravado/mapping/operation.py] turns the keyword arguments
    of an operation invocation into a request dict and maps an HTTP
    response back to a [(status_code, value)] pair.  Python dicts are
    finite maps, the exceptions of the module are values of [result], and
    the two dicts a claim distinguishes ([self.params] and the per-call
    copy) live in a store of dict objects. *)

From Stdlib Require Import ZArith Ascii String List.
From stdpp Require Import gmap strings list fin_maps pretty.

Local Open Scope string_scope.
Set Warnings "-register-all,-clear-no-such-hyp".

(** ** Python values and exceptions *)

(** The values that flow through the module: call arguments, JSON bodies,
    schema nodes and the entries of the request dict. *)
Inductive pyval :=
| PNone
| PBool (b : bool)
| PInt (z : Z)
| PStr (s : string)
| PList (l : list pyval)
| PDict (d : list (string * pyval)).

(** Exception classes.  [TypeError], [KeyError], [AttributeError] and
    [NotImplementedError] are Python built-ins, [SwaggerError] comes from
    [bravado.exception].  [SpecValidationError] and
    [UnsupportedResponseType] are names of the specification's error
    taxonomy: no statement of operation.py raises them.  [OtherError]
    stands for whatever a collaborator (marshaler, unmarshaler, body
    decoder) raises. *)
Inductive exn_class :=
| TypeError
| KeyError
| AttributeError
| NotImplementedError
| SwaggerError
| SpecValidationError
| UnsupportedResponseType
| OtherError (cls : string).

Record exn := Exn { exn_cls : exn_class; exn_msg : string }.

Inductive result (A : Type) :=
| Return (a : A)
| Raise (e : exn).
Arguments Return {A} a.
Arguments Raise {A} e.

(** ** Strings: the fragment of [str] the module uses *)

Module PyStr.

(** [s.startswith(p)] *)
Fixpoint startswith (p s : string) : bool :=
  match p, s with
  | EmptyString, _ => true
  | String a p', String b s' => if Ascii.eqb a b then startswith p' s' else false
  | String _ _, EmptyString => false
  end.

(** [s.replace(old, new)] for a non-empty [old]: occurrences are found
    from left to right and do not overlap; [skip] counts the characters
    of a matched occurrence that are still to be passed over. *)
Fixpoint replace_from (old new : string) (skip : nat) (s : string) : string :=
  match s with
  | EmptyString => EmptyString
  | String c s' =>
      match skip with
      | S k => replace_from old new k s'
      | O =>
          if startswith old s
          then new +:+ replace_from old new (String.length old - 1) s'
          else String c (replace_from old new 0 s')
      end
  end.

Definition replace (old new s : string) : string := replace_from old new 0 s.

(** [s.lstrip(c)], [s.rstrip(c)] and [s.strip(c)] for a one-character
    set [c]. *)
Fixpoint lstrip (c : ascii) (s : string) : string :=
  match s with
  | EmptyString => EmptyString
  | String a s' => if Ascii.eqb a c then lstrip c s' else s
  end.

Fixpoint rstrip (c : ascii) (s : string) : string :=
  match s with
  | EmptyString => EmptyString
  | String a s' =>
      match rstrip c s' with
      | EmptyString => if Ascii.eqb a c then EmptyString else String a EmptyString
      | r => String a r
      end
  end.

Definition strip (c : ascii) (s : string) : string := rstrip c (lstrip c s).

(** [s.lower()] on ASCII letters. *)
Definition lower_ascii (a : ascii) : ascii :=
  let n := nat_of_ascii a in
  if (65 <=? n)%nat && (n <=? 90)%nat then ascii_of_nat (n + 32) else a.

Fixpoint lower (s : string) : string :=
  match s with
  | EmptyString => EmptyString
  | String a s' => String (lower_ascii a) (lower s')
  end.

(** [str(n)] for an int. *)
Definition str_int (n : Z) : string := pretty n.

(** [sub in s] *)
Fixpoint contains (sub s : string) : bool :=
  startswith sub s ||
  match s with
  | EmptyString => false
  | String _ s' => contains sub s'
  end.

End PyStr.

(** ** The specification tree

    The Swagger spec arrives as nested dicts with every [$ref] already
    inlined.  Each dict the module reads is a record with one optional
    field per key it looks up: [d.get(k)] is the field, [None] when the
    key is missing. *)

Inductive location := InPath | InQuery | InHeader | InBody | InFormData.

(** One entry of a ['parameters'] list. *)
Record param_spec := ParamSpec {
  ps_name : string;
  ps_in : location;
  ps_required : bool;
  ps_default : option pyval
}.

(** One entry of ['responses']; ['schema' in response_spec] is
    [is_Some (schema response_spec)]. *)
Record response_spec := ResponseSpec {
  schema : option pyval
}.

(** [op_spec]: the operation in dict form. *)
Record OpSpec := {
  parameters : option (list param_spec);
  operationId : option string;
  responses : option (gmap string response_spec)
}.

(** [spec_dict['paths'][path_name]], of which only the shared
    ['parameters'] are read here. *)
Record PathSpec := {
  path_parameters : option (list param_spec)
}.

Record SpecDict := {
  paths : option (gmap string PathSpec)
}.

(** [swagger_spec], an instance of [Spec]. *)
Record Spec := {
  spec_dict : SpecDict;
  api_url : string
}.

(** Modelled from the spec: [bravado.mapping.param.Param] is imported by
    operation.py and not defined in it.  The Parameter Model is built
    from the enclosing spec and one parameter subtree and exposes [name],
    [location], [required] and [has_default()], the last one true iff
    the subtree declares a default value. *)
Record Param := {
  param_spec_of : param_spec
}.

Definition Param_new (swagger_spec : Spec) (ps : param_spec) : Param :=
  {| param_spec_of := ps |}.

Definition name (p : Param) : string := ps_name (param_spec_of p).
Definition required (p : Param) : bool := ps_required (param_spec_of p).
Definition has_default (p : Param) : bool :=
  match ps_default (param_spec_of p) with Some _ => true | None => false end.

(** ** Dict objects

    [self.params] and [current_params] are references to dict objects;
    [store] maps each reference to the dict it holds.  The request dict
    is passed to the marshaler and threaded as a value. *)

Definition loc := positive.

Abbreviation pdict := (gmap string Param).
Abbreviation store := (gmap loc (gmap string Param)).

(** The dict a reference holds. *)
Definition deref (h : store) (l : loc) : pdict := default ∅ (h !! l).

(** [{}]: a new, empty dict object. *)
Definition dict_new (h : store) : loc * store :=
  let l := fresh (dom h) in (l, <[l := ∅]> h).

(** [d.copy()]: a new dict object with the same items (a shallow copy). *)
Definition dict_copy (h : store) (d : loc) : loc * store :=
  let l := fresh (dom h) in (l, <[l := deref h d]> h).

(** [d[k] = v] *)
Definition dict_setitem (h : store) (d : loc) (k : string) (v : Param) : store :=
  <[d := <[k := v]> (deref h d)]> h.

(** [d.pop(k, None)]: the popped value, and the dict without [k]. *)
Definition dict_pop (h : store) (d : loc) (k : string) : option Param * store :=
  match deref h d !! k with
  | Some v => (Some v, <[d := delete k (deref h d)]> h)
  | None => (None, h)
  end.

(** Iteration order of a dict.  Python 2 promises no particular order:
    [iteritems] yields every item once, and [itervalues] follows the same
    order. *)
Class DictOrder := {
  iteritems : ∀ {A : Type}, gmap string A → list (string * A);
  iteritems_perm : ∀ (A : Type) (m : gmap string A), iteritems m ≡ₚ map_to_list m
}.

Definition itervalues `{DictOrder} {A : Type} (m : gmap string A) : list A :=
  (iteritems m).*2.

(** ** The Operation object *)

Record Operation := {
  swagger_spec : Spec;
  path_name : string;
  http_method : string;
  op_spec : OpSpec;
  _operation_id : option string;
  params : loc
}.

Definition set_operation_id (self : Operation) (i : option string) : Operation :=
  {| swagger_spec := swagger_spec self; path_name := path_name self;
     http_method := http_method self; op_spec := op_spec self;
     _operation_id := i; params := params self |}.

Definition set_params (self : Operation) (l : loc) : Operation :=
  {| swagger_spec := swagger_spec self; path_name := path_name self;
     http_method := http_method self; op_spec := op_spec self;
     _operation_id := _operation_id self; params := l |}.

(** [Operation.__init__] *)
Definition Operation_init (h : store) (swagger_spec : Spec) (path_name http_method : string)
    (op_spec : OpSpec) : Operation * store :=
  let '(l, h1) := dict_new h in
  ({| swagger_spec := swagger_spec; path_name := path_name;
      http_method := http_method; op_spec := op_spec;
      _operation_id := None; params := l |}, h1).

(** The loop of [build_params]: [self.params[param.name] = param] for
    every parameter subtree, in list order. *)
Fixpoint build_params_loop (sp : Spec) (d : loc) (param_specs : list param_spec)
    (h : store) : store :=
  match param_specs with
  | [] => h
  | ps :: rest =>
      let param := Param_new sp ps in
      build_params_loop sp d rest (dict_setitem h d (name param) param)
  end.

(** The dict that loop leaves behind, as a fold: one insertion per
    declaration, in list order. *)
Definition inserted (sp : Spec) (param_specs : list param_spec) (m : gmap string Param)
    : gmap string Param :=
  foldl (λ acc ps, <[ps_name ps := Param_new sp ps]> acc) m param_specs.

(** [Operation.build_params].  [self.params] is rebound to a new dict
    before the paths table is read, so the rebinding is visible also when
    the lookup raises. *)
Definition build_params (self : Operation) (h : store) : Operation * store * result unit :=
  let '(l, h1) := dict_new h in
  let self1 := set_params self l in
  let op_param_specs := default [] (parameters (op_spec self1)) in
  match paths (spec_dict (swagger_spec self1)) with
  | None => (self1, h1, Raise (Exn KeyError "paths"))
  | Some table =>
      match table !! path_name self1 with
      | None => (self1, h1, Raise (Exn KeyError (path_name self1)))
      | Some path_specs =>
          let path_param_specs := default [] (path_parameters path_specs) in
          let param_specs := (op_param_specs ++ path_param_specs)%list in
          (self1, build_params_loop (swagger_spec self1) l param_specs h1, Return ())
      end
  end.

(** [Operation.from_spec] *)
Definition from_spec (h : store) (swagger_spec : Spec) (path_name http_method : string)
    (op_spec : OpSpec) : Operation * store * result unit :=
  let '(op, h1) := Operation_init h swagger_spec path_name http_method op_spec in
  build_params op h1.

(** The id [operation_id] builds from the method and the path. *)
Definition derived_operation_id (http_method path_name : string) : string :=
  PyStr.strip "_"
    (PyStr.replace "__" "_"
      (PyStr.replace "}" "_"
        (PyStr.replace "{" "_"
          (PyStr.replace "/" "_" (http_method +:+ "_" +:+ path_name))))).

(** The property [Operation.operation_id]: the value, and the object
    with the value memoized in [_operation_id]. *)
Definition operation_id (self : Operation) : Operation * string :=
  match _operation_id self with
  | Some i => (self, i)
  | None =>
      match operationId (op_spec self) with
      | Some i => (set_operation_id self (Some i), i)
      | None =>
          let i := derived_operation_id (http_method self) (path_name self) in
          (set_operation_id self (Some i), i)
      end
  end.

(** The only change a call makes to the object itself: [self'] is [self],
    possibly with the operation id memoized. *)
Definition memoized_from (self self' : Operation) : Prop :=
  self' = self ∨ self' = (operation_id self).1.

(** [Operation.__repr__], which [str(op)] and [format] fall back to. *)
Definition Operation_repr (self : Operation) : Operation * string :=
  let '(self1, i) := operation_id self in
  (self1, "Operation(" +:+ i +:+ ")").

(** ** Building the request *)

(** The request in dict form: ['method'], ['url'], ['params'],
    ['headers'] and whatever the marshaler adds. *)
Abbreviation Request := (gmap string pyval).

(** [d.get(k, default)] on a value: [None] when the value is no dict and
    has no [get]. *)
Fixpoint assoc_get (d : list (string * pyval)) (k : string) : option pyval :=
  match d with
  | [] => None
  | (k', v) :: rest => if String.eqb k' k then Some v else assoc_get rest k
  end.

Definition pyval_get (v : pyval) (k : string) (dflt : pyval) : option pyval :=
  match v with
  | PDict d => Some (default dflt (assoc_get d k))
  | _ => None
  end.

(** What the transport collaborator is handed: [HTTPFuture(http_client,
    request, response_future)].  The network is touched only through it. *)
Record HTTPFuture := {
  future_request : Request;
  future_operation : Operation
}.

Section Marshaling.

Context `{DictOrder}.

(** [bravado.mapping.param.marshal_param(param, value, request)], which
    operation.py imports: it mutates the request dict and may raise.
    The result is the request after the call and the exception, if
    any. *)
Variable marshal_param : Param → pyval → Request → Request * option exn.

(** First loop of [construct_params]: every supplied argument pops its
    parameter from [current_params] and is marshaled. *)
Fixpoint consume_kwargs (self : Operation) (current_params : loc)
    (items : list (string * pyval)) (h : store) (request : Request)
    : Operation * store * Request * option exn :=
  match items with
  | [] => (self, h, request, None)
  | (param_name, param_value) :: rest =>
      match dict_pop h current_params param_name with
      | (None, h1) =>
          let '(self1, i) := operation_id self in
          (self1, h1, request,
           Some (Exn TypeError (i +:+ " does not have parameter " +:+ param_name)))
      | (Some param, h1) =>
          match marshal_param param param_value request with
          | (request1, Some e) => (self, h1, request1, Some e)
          | (request1, None) => consume_kwargs self current_params rest h1 request1
          end
      end
  end.

(** Second loop of [construct_params], over the parameters that are
    left. *)
Fixpoint check_remaining (remaining : list Param) (request : Request)
    : Request * option exn :=
  match remaining with
  | [] => (request, None)
  | remaining_param :: rest =>
      if required remaining_param
      then (request,
            Some (Exn TypeError (name remaining_param +:+ " is a required parameter")))
      else if negb (required remaining_param) && has_default remaining_param
      then match marshal_param remaining_param PNone request with
           | (request1, Some e) => (request1, Some e)
           | (request1, None) => check_remaining rest request1
           end
      else check_remaining rest request
  end.

(** [Operation.construct_params]: the object, the store and the
    request after the call, and the exception raised, if any. *)
Definition construct_params (self : Operation) (h : store) (request : Request)
    (op_kwargs : gmap string pyval) : Operation * store * Request * option exn :=
  let '(current_params, h0) := dict_copy h (params self) in
  match consume_kwargs self current_params (iteritems op_kwargs) h0 request with
  | (self1, h1, request1, Some e) => (self1, h1, request1, Some e)
  | (self1, h1, request1, None) =>
      let '(request2, r) :=
        check_remaining (itervalues (deref h1 current_params)) request1 in
      (self1, h1, request2, r)
  end.

(** [Operation.construct_request] *)
Definition construct_request (self : Operation) (h : store)
    (kwargs : gmap string pyval) : Operation * store * result Request :=
  let request_options := default (PDict []) (kwargs !! "_request_options") in
  let kwargs1 := delete "_request_options" kwargs in
  match pyval_get request_options "headers" (PDict []) with
  | None =>
      (self, h, Raise (Exn AttributeError "object has no attribute 'get'"))
  | Some headers =>
      let request : Request :=
        <["headers" := headers]>
          (<["params" := PDict []]>
            (<["url" := PStr (api_url (swagger_spec self) +:+ path_name self)]>
              (<["method" := PStr (http_method self)]> ∅))) in
      match construct_params self h request kwargs1 with
      | (self1, h1, _, Some e) => (self1, h1, Raise e)
      | (self1, h1, request1, None) => (self1, h1, Return request1)
      end
  end.

(** [Operation.__call__]: the debug line evaluates [operation_id], the
    request is constructed, and only then the future is created. *)
Definition call (self : Operation) (h : store) (kwargs : gmap string pyval)
    : Operation * store * result HTTPFuture :=
  let '(self0, _) := operation_id self in
  match construct_request self0 h kwargs with
  | (self1, h1, Raise e) => (self1, h1, Raise e)
  | (self1, h1, Return request) =>
      (self1, h1, Return {| future_request := request; future_operation := self1 |})
  end.

(** *** The two loops as functions of the dict contents

    What the loops compute depends on the store only through the dict
    that [current_params] holds; [consume_items] is the first loop on
    that dict ([i] is the operation id used in the message). *)
Fixpoint consume_items (i : string) (m : gmap string Param)
    (items : list (string * pyval)) (request : Request)
    : gmap string Param * Request * option exn :=
  match items with
  | [] => (m, request, None)
  | (param_name, param_value) :: rest =>
      match m !! param_name with
      | None =>
          (m, request,
           Some (Exn TypeError (i +:+ " does not have parameter " +:+ param_name)))
      | Some param =>
          match marshal_param param param_value request with
          | (request1, Some e) => (delete param_name m, request1, Some e)
          | (request1, None) => consume_items i (delete param_name m) rest request1
          end
      end
  end.

(** A sequence of [marshal_param] calls on the same request dict, up to
    the first one that raises. *)
Fixpoint marshal_all (calls : list (Param * pyval)) (request : Request)
    : Request * option exn :=
  match calls with
  | [] => (request, None)
  | (param, value) :: rest =>
      match marshal_param param value request with
      | (request1, Some e) => (request1, Some e)
      | (request1, None) => marshal_all rest request1
      end
  end.

(** The calls made for the supplied arguments, and for the parameters
    that are left over. *)
Definition supplied_calls (m : gmap string Param) (items : list (string * pyval))
    : list (Param * pyval) :=
  omap (λ kv, (λ p, (p, kv.2)) <$> m !! kv.1) items.

Definition default_calls (remaining : list Param) : list (Param * pyval) :=
  (λ p, (p, PNone)) <$> filter (λ p, negb (required p) && has_default p) remaining.

(** The parameters no supplied argument names. *)
Definition unsupplied (m : gmap string Param) (op_kwargs : gmap string pyval)
    : gmap string Param :=
  filter (λ kv, op_kwargs !! kv.1 = None) m.

(** All calls of a run of [construct_params] that completes. *)
Definition marshal_calls (m : gmap string Param) (op_kwargs : gmap string pyval)
    : list (Param * pyval) :=
  (supplied_calls m (iteritems op_kwargs) ++
   default_calls (itervalues (unsupplied m op_kwargs)))%list.

End Marshaling.

(** ** Handling the response *)

(** [bravado.mapping.response.ResponseLike]: what [unmarshal_response]
    needs of a response.  Decoding the body with [json()] may consume or
    cache it, so it yields the response afterwards next to the decoded
    value; the status code is an attribute that decoding leaves alone. *)
Class ResponseLike (R : Type) := {
  status_code : R → Z;
  json : R → R * result pyval;
  status_code_json : ∀ r, status_code (json r).1 = status_code r
}.

(** The object the transport hands to [handle_response]: a
    [requests.models.Response] (which [RequestsLibResponseAdapter] wraps
    into a [ResponseLike]) or an object of another type, of which only
    [type(response)] is looked at. *)
Inductive http_response (R : Type) :=
| RequestsResponse (r : R)
| ForeignResponse (type_repr : string).
Arguments RequestsResponse {R} r.
Arguments ForeignResponse {R} type_repr.

(** [get_response_spec(status_code, op)].  The message formats [op], so
    [operation_id] may be memoized on the way. *)
Definition get_response_spec (status : Z) (op : Operation)
    : Operation * result response_spec :=
  match responses (op_spec op) with
  | None => (op, Raise (Exn AttributeError "'NoneType' object has no attribute 'get'"))
  | Some response_specs =>
      let default_response_spec := response_specs !! "default" in
      let response_spec :=
        match response_specs !! PyStr.str_int status with
        | Some r => Some r
        | None => default_response_spec
        end in
      match response_spec with
      | None =>
          let '(op1, r) := Operation_repr op in
          (op1, Raise (Exn SwaggerError
            ("Response specification matching http status_code " +:+ r +:+
             " not found for " +:+ PyStr.str_int status +:+
             ". Either add a response specifiction for the status_code " +:+
             "or use a `default` response.")))
      | Some r => (op, Return r)
      end
  end.

Section Unmarshaling.

Context {R : Type} `{ResponseLike R}.

(** [bravado.mapping.unmarshal.unmarshal_schema_object(swagger_spec,
    schema, value)], imported by operation.py. *)
Variable unmarshal_schema_object : Spec → pyval → pyval → result pyval.

(** [unmarshal_response(swagger_spec, response_spec, response)]: the
    response afterwards, and the pair returned or the exception. *)
Definition unmarshal_response (sp : Spec) (rs : response_spec) (response : R)
    : R * result (Z * pyval) :=
  match schema rs with
  | None => (response, Return (status_code response, PNone))
  | Some content_spec =>
      match json response with
      | (response1, Raise e) => (response1, Raise e)
      | (response1, Return content_value) =>
          (response1,
           match unmarshal_schema_object sp content_spec content_value with
           | Return value => Return (status_code response1, value)
           | Raise e => Raise e
           end)
      end
  end.

(** [handle_response(response, op)] *)
Definition handle_response (response : http_response R) (op : Operation)
    : Operation * option R * result (Z * pyval) :=
  match response with
  | ForeignResponse t =>
      (op, None, Raise (Exn NotImplementedError ("TODO: Handle response of type " +:+ t)))
  | RequestsResponse r =>
      let wrapped_response := r in
      match get_response_spec (status_code wrapped_response) op with
      | (op1, Raise e) => (op1, Some wrapped_response, Raise e)
      | (op1, Return rs) =>
          let '(r1, res) := unmarshal_response (swagger_spec op1) rs wrapped_response in
          (op1, Some r1, res)
      end
  end.

End Unmarshaling.

(** ** The operation id as the specification words it *)

Module IdSpec.

(** The derivation in the words of the specification: every ['/'],
    ['{'] and ['}'] becomes ['_'], consecutive underscores collapse to
    one, leading and trailing underscores are trimmed. *)
Definition is_separator (a : ascii) : bool :=
  Ascii.eqb a "/" || Ascii.eqb a "{" || Ascii.eqb a "}".

Fixpoint substitute (s : string) : string :=
  match s with
  | EmptyString => EmptyString
  | String a s' => String (if is_separator a then "_"%char else a) (substitute s')
  end.

Definition starts_with_underscore (s : string) : bool :=
  match s with
  | String b _ => Ascii.eqb b "_"
  | EmptyString => false
  end.

(** An underscore followed by an underscore is dropped. *)
Fixpoint collapse (s : string) : string :=
  match s with
  | EmptyString => EmptyString
  | String a s' =>
      if Ascii.eqb a "_" && starts_with_underscore s'
      then collapse s'
      else String a (collapse s')
  end.

(** The id built from the method exactly as it is given. *)
Definition described_id (method path : string) : string :=
  PyStr.strip "_" (collapse (substitute (method +:+ "_" +:+ path))).

(** The id the specification describes: the method is lowercased
    first. *)
Definition spec_operation_id (method path : string) : string :=
  described_id (PyStr.lower method) path.

(** No run of three or more underscores. *)
Fixpoint no_triple (s : string) : bool :=
  match s with
  | EmptyString => true
  | String a s' =>
      negb (Ascii.eqb a "_" && starts_with_underscore s' &&
            match s' with
            | String _ s'' => starts_with_underscore s''
            | EmptyString => false
            end)
      && no_triple s'
  end.

End IdSpec.


(** ** Sample data

    A small pet-store description, used to evaluate the definitions. *)

Module Sample.

(** The order [map_to_list] happens to produce is one iteration
    order. *)
Definition canonical_order : DictOrder :=
  {| iteritems := fun A m => map_to_list m;
     iteritems_perm := fun A m => reflexivity (map_to_list m) |}.

Definition petId_in_path : param_spec :=
  {| ps_name := "petId"; ps_in := InPath; ps_required := true; ps_default := None |}.

Definition petId_in_query : param_spec :=
  {| ps_name := "petId"; ps_in := InQuery; ps_required := false; ps_default := None |}.

Definition limit_with_default : param_spec :=
  {| ps_name := "limit"; ps_in := InQuery; ps_required := false;
     ps_default := Some (PInt 20) |}.

Definition verbose_optional : param_spec :=
  {| ps_name := "verbose"; ps_in := InQuery; ps_required := false; ps_default := None |}.

Definition api_key_header : param_spec :=
  {| ps_name := "api_key"; ps_in := InHeader; ps_required := false; ps_default := None |}.

Definition Pet_schema : pyval := PDict [("type", PStr "object")].

Definition pet_responses : gmap string response_spec :=
  <["200" := {| schema := Some Pet_schema |}]> (<["default" := {| schema := None |}]> ∅).

Definition only_200 : gmap string response_spec :=
  <["200" := {| schema := Some Pet_schema |}]> ∅.

Definition get_pet_spec : OpSpec :=
  {| parameters := Some [petId_in_path; limit_with_default; verbose_optional];
     operationId := None;
     responses := Some pet_responses |}.

Definition bare_spec : OpSpec :=
  {| parameters := None; operationId := None; responses := Some only_200 |}.

Definition named_spec : OpSpec :=
  {| parameters := None; operationId := Some "getPetById"; responses := None |}.

Definition petstore : Spec :=
  {| spec_dict :=
       {| paths := Some (<["/pet/{petId}" := {| path_parameters := Some [api_key_header] |}]> ∅) |};
     api_url := "http://petstore.example/v2" |}.

(** An operation object as [__init__] leaves it, with [params] at
    reference [l]. *)
Definition operation (l : loc) (method path : string) (spec : OpSpec) : Operation :=
  {| swagger_spec := petstore; path_name := path; http_method := method;
     op_spec := spec; _operation_id := None; params := l |}.

(** The path and the operation both declare [petId]. *)
Definition colliding_store : Spec :=
  {| spec_dict :=
       {| paths := Some (<["/pet/{petId}" := {| path_parameters := Some [petId_in_query] |}]> ∅) |};
     api_url := "http://petstore.example/v2" |}.

Definition colliding_spec : OpSpec :=
  {| parameters := Some [petId_in_path]; operationId := None; responses := None |}.

Definition colliding_operation : Operation :=
  {| swagger_spec := colliding_store; path_name := "/pet/{petId}"; http_method := "get";
     op_spec := colliding_spec; _operation_id := None; params := 1%positive |}.

(** An operation whose path the paths table does not list. *)
Definition store_inventory : Operation :=
  operation 1%positive "get" "/store/inventory" bare_spec.

(** Modelled from the spec: a marshaler after the five locations of
    the specification's parameter marshaling, standing in for
    [bravado.mapping.param.marshal_param] where a concrete call is
    evaluated.  A value of [None] is replaced by the declared default;
    a path parameter replaces its placeholder in the url, a query or
    header parameter is added to ['params'] or ['headers'], a body
    parameter becomes ['data'], a form parameter is added to ['data']. *)
Definition str_of (v : pyval) : string :=
  match v with
  | PStr s => s
  | PInt z => PyStr.str_int z
  | PBool true => "True"
  | PBool false => "False"
  | PNone => "None"
  | PList _ | PDict _ => ""
  end.

Definition dict_add (request : Request) (field k : string) (v : pyval) : Request :=
  match request !! field with
  | Some (PDict d) => <[field := PDict ((k, v) :: d)]> request
  | _ => <[field := PDict [(k, v)]]> request
  end.

Definition marshal (param : Param) (value : pyval) (request : Request)
    : Request * option exn :=
  let value :=
    match value with
    | PNone => default PNone (ps_default (param_spec_of param))
    | _ => value
    end in
  match ps_in (param_spec_of param) with
  | InPath =>
      match request !! "url" with
      | Some (PStr url) =>
          (<["url" := PStr (PyStr.replace ("{" +:+ name param +:+ "}") (str_of value) url)]>
             request, None)
      | _ => (request, Some (Exn KeyError "url"))
      end
  | InQuery => (dict_add request "params" (name param) value, None)
  | InHeader => (dict_add request "headers" (name param) value, None)
  | InBody => (<["data" := value]> request, None)
  | InFormData => (dict_add request "data" (name param) value, None)
  end.

(** [GET /pet/{petId}] with an explicit id, as [from_spec] builds it in
    an empty store: [petId] is required, [limit] has a default,
    [verbose] and the path-level [api_key] are optional. *)
Definition show_pet_spec : OpSpec :=
  {| parameters := Some [petId_in_path; limit_with_default; verbose_optional];
     operationId := Some "showPet";
     responses := Some pet_responses |}.

Definition show_pet : Operation :=
  (from_spec ∅ petstore "/pet/{petId}" "get" show_pet_spec).1.1.

Definition show_pet_store : store :=
  (from_spec ∅ petstore "/pet/{petId}" "get" show_pet_spec).1.2.

(** An empty request skeleton for [show_pet]. *)
Definition skeleton : Request :=
  <["headers" := PDict []]>
    (<["params" := PDict []]>
      (<["url" := PStr "http://petstore.example/v2/pet/{petId}"]>
        (<["method" := PStr "get"]> ∅))).

(** Three calls of [show_pet]. *)
Definition color_only : gmap string pyval := <["color" := PStr "red"]> ∅.
Definition petId_only : gmap string pyval := <["petId" := PInt 7]> ∅.
Definition limit_only : gmap string pyval := <["limit" := PInt 5]> ∅.

(** A response with a canned status code and body that counts how
    often the body is decoded. *)
Record canned_response := {
  canned_status : Z;
  canned_body : result pyval;
  canned_reads : nat
}.

#[global] Instance canned_ResponseLike : ResponseLike canned_response := {|
  status_code := canned_status;
  json := fun r =>
    ({| canned_status := canned_status r; canned_body := canned_body r;
        canned_reads := S (canned_reads r) |}, canned_body r);
  status_code_json := fun r => eq_refl
|}.

Definition pet_7 : pyval := PDict [("id", PInt 7); ("name", PStr "Rex")].

Definition ok_response : canned_response :=
  {| canned_status := 200; canned_body := Return pet_7; canned_reads := 0 |}.

Definition not_found_response : canned_response :=
  {| canned_status := 404; canned_body := Return PNone; canned_reads := 0 |}.

(** Modelled from the spec: the schema unmarshaler
    [bravado.mapping.unmarshal.unmarshal_schema_object] is imported by
    operation.py.  This stand-in returns the raw value as it is, which
    is what the specification describes for free-form objects and for
    scalars without a format, and an absent value for [null]. *)
Definition unmarshal (sp : Spec) (schema_node raw : pyval) : result pyval :=
  Return raw.

Definition get_pet : Operation :=
  operation 1%positive "get" "/pet/{petId}" get_pet_spec.

Definition get_pet_bare : Operation :=
  operation 1%positive "get" "/pet/{petId}" bare_spec.

Definition get_pet_named : Operation :=
  operation 1%positive "get" "/pet/{petId}" named_spec.

Definition get_repo : Operation :=
  operation 1%positive "get" "/repos/{owner}/{repo}" bare_spec.

Definition upper_get_pet : Operation :=
  operation 1%positive "GET" "/pet/{petId}" bare_spec.

End Sample.

(** ** Characters of a string *)

Module PyChars.

(** [c in s] for a single character. *)
Fixpoint has_char (c : ascii) (s : string) : bool :=
  match s with
  | EmptyString => false
  | String a s' => Ascii.eqb a c || has_char c s'
  end.

(** [s[0]] and [s[-1]], [None] for the empty string. *)
Definition first_char (s : string) : option ascii :=
  match s with
  | EmptyString => None
  | String a _ => Some a
  end.

Fixpoint last_char (s : string) : option ascii :=
  match s with
  | EmptyString => None
  | String a EmptyString => Some a
  | String _ s' => last_char s'
  end.

End PyChars.

(** ** The request [construct_request] starts from *)

(** The dict literal of [construct_request], with the headers taken from
    the request options. *)
Definition initial_request (self : Operation) (headers : pyval) : Request :=
  <["headers" := headers]>
    (<["params" := PDict []]>
      (<["url" := PStr (api_url (swagger_spec self) +:+ path_name self)]>
        (<["method" := PStr (http_method self)]> ∅))).

(** ** More sample data *)

Module Sample2.

(** Another iteration order: [map_to_list] backwards. *)
Definition reversed_order : DictOrder :=
  {| iteritems := fun A m => reverse (map_to_list m);
     iteritems_perm := fun A m => reverse_Permutation (map_to_list m) |}.

Definition petId_and_color : gmap string pyval :=
  <["color" := PStr "red"]> (<["petId" := PInt 7]> ∅).

(** A marshaler that files every value under ['params'] and never
    raises. *)
Definition file_under_params (param : Param) (value : pyval) (request : Request)
    : Request * option exn :=
  (Sample.dict_add request "params" (name param) value, None).

(** [GET /pet/{petId}] declaring only the optional [verbose]; with the
    path-level [api_key] no parameter is required or has a default. *)
Definition quiet_spec : OpSpec :=
  {| parameters := Some [Sample.verbose_optional];
     operationId := None;
     responses := Some Sample.pet_responses |}.

Definition quiet : Operation :=
  (from_spec ∅ Sample.petstore "/pet/{petId}" "get" quiet_spec).1.1.

Definition quiet_store : store :=
  (from_spec ∅ Sample.petstore "/pet/{petId}" "get" quiet_spec).1.2.

(** Call arguments for [Sample.show_pet]. *)
Definition petId_and_options : gmap string pyval :=
  <["_request_options" := PDict [("headers", PDict [("X-Trace", PStr "1")])]]>
    (<["petId" := PInt 7]> ∅).

Definition options_only : gmap string pyval :=
  <["_request_options" := PDict [("headers", PDict [("X-Trace", PStr "1")])]]> ∅.

(** Modelled from the spec: marshaling can fail, and a failure ends
    the call.  This marshaler refuses a list as the value of a path
    parameter and otherwise does what [Sample.marshal] does. *)
Definition strict_marshal (param : Param) (value : pyval) (request : Request)
    : Request * option exn :=
  match ps_in (param_spec_of param), value with
  | InPath, PList _ =>
      (request, Some (Exn (OtherError "ValidationError") (name param)))
  | _, _ => Sample.marshal param value request
  end.

Definition list_petId_and_color : gmap string pyval :=
  <["color" := PStr "red"]> (<["petId" := PList []]> ∅).

Definition teapot_response : Sample.canned_response :=
  {| Sample.canned_status := 418; Sample.canned_body := Return PNone;
     Sample.canned_reads := 0 |}.

End Sample2.

(** * Properties *)

(** ** Strings *)

Example replace_nonoverlapping : PyStr.replace "__" "_" "a___b____c" = "a__b__c".
Proof. reflexivity. Qed.

Example strip_both : PyStr.strip "_" "__a_b__" = "a_b".
Proof. reflexivity. Qed.

Example str_int_404 : PyStr.str_int 404 = "404".
Proof. reflexivity. Qed.

(** ** The derived operation id *)

Section OperationId.

Import IdSpec.

#[local] Arguments Ascii.eqb : simpl never.

Lemma replace_char_cons (c a : ascii) (s : string) :
  PyStr.replace (String c EmptyString) "_" (String a s) =
  String (if Ascii.eqb a c then "_"%char else a)
         (PyStr.replace (String c EmptyString) "_" s).
Proof.
  unfold PyStr.replace. simpl.
  rewrite (Ascii.eqb_sym c a).
  destruct (Ascii.eqb a c); reflexivity.
Qed.

Lemma replace_separators (s : string) :
  PyStr.replace "}" "_" (PyStr.replace "{" "_" (PyStr.replace "/" "_" s)) = substitute s.
Proof.
  induction s as [|a s IH]; [reflexivity|].
  rewrite !replace_char_cons, IH. simpl. f_equal.
  unfold is_separator.
  destruct (Ascii.eqb_spec a "/") as [->|]; [reflexivity|].
  destruct (Ascii.eqb_spec a "{") as [->|]; [reflexivity|].
  simpl. reflexivity.
Qed.

Lemma replace_pair_skip (a b : ascii) (s : string) :
  Ascii.eqb a "_" = true → Ascii.eqb b "_" = true →
  PyStr.replace "__" "_" (String a (String b s)) =
  String "_" (PyStr.replace "__" "_" s).
Proof.
  intros Ha Hb. apply Ascii.eqb_eq in Ha, Hb. subst. reflexivity.
Qed.

Lemma replace_pair_keep (a : ascii) (s : string) :
  Ascii.eqb a "_" && starts_with_underscore s = false →
  PyStr.replace "__" "_" (String a s) = String a (PyStr.replace "__" "_" s).
Proof.
  intros Hn. unfold PyStr.replace. simpl.
  rewrite (Ascii.eqb_sym "_" a).
  destruct (Ascii.eqb a "_"); [|reflexivity].
  destruct s as [|b s]; [reflexivity|].
  simpl in Hn. rewrite (Ascii.eqb_sym "_" b), Hn. reflexivity.
Qed.

Lemma collapse_cons (a : ascii) (s : string) :
  collapse (String a s) =
  if Ascii.eqb a "_" && starts_with_underscore s
  then collapse s else String a (collapse s).
Proof. reflexivity. Qed.

Lemma no_triple_cons (a : ascii) (s : string) :
  no_triple (String a s) = true → no_triple s = true.
Proof. simpl. intros Ha. by apply andb_true_iff in Ha as [_ Ha]. Qed.

(** One pass of [replace('__', '_')] collapses every run of at most two
    underscores. *)
Lemma replace_pair_collapse (s : string) :
  (no_triple s = true → PyStr.replace "__" "_" s = collapse s) ∧
  (∀ a, no_triple (String a s) = true →
        PyStr.replace "__" "_" (String a s) = collapse (String a s)).
Proof.
  induction s as [|b s [IH1 IH2]].
  - split; [reflexivity|]. intros a _.
    rewrite replace_pair_keep by (simpl; apply andb_false_r).
    rewrite collapse_cons. simpl. by rewrite andb_false_r.
  - split; [intros Hs; apply IH2, Hs|].
    intros a Ha. rewrite collapse_cons.
    destruct (Ascii.eqb a "_" && starts_with_underscore (String b s)) eqn:Hab.
    + apply andb_true_iff in Hab as [Hau Hbu]. simpl in Hbu.
      rewrite replace_pair_skip by assumption.
      pose proof (no_triple_cons _ _ Ha) as Hbs.
      pose proof (no_triple_cons _ _ Hbs) as Hs.
      simpl in Ha. rewrite Hau, Hbu in Ha. simpl in Ha.
      apply andb_true_iff in Ha as [Hs3 _].
      apply negb_true_iff in Hs3.
      rewrite collapse_cons, Hbu.
      apply Ascii.eqb_eq in Hbu. subst b.
      destruct s as [|c s]; [reflexivity|].
      simpl in Hs3. simpl starts_with_underscore. rewrite Hs3. simpl.
      f_equal. apply IH1, Hs.
    + rewrite replace_pair_keep by assumption.
      f_equal. apply IH2. by apply no_triple_cons in Ha.
Qed.

Lemma derived_operation_id_described (method path : string) :
  no_triple (substitute (method +:+ "_" +:+ path)) = true →
  derived_operation_id method path = described_id method path.
Proof.
  intros Hn. unfold derived_operation_id, described_id.
  rewrite replace_separators.
  by rewrite (proj1 (replace_pair_collapse _) Hn).
Qed.

Lemma starts_with_underscore_replace (s : string) :
  starts_with_underscore (PyStr.replace "__" "_" s) = starts_with_underscore s.
Proof.
  destruct s as [|a s]; [reflexivity|].
  destruct (Ascii.eqb a "_" && starts_with_underscore s) eqn:Hab.
  - apply andb_true_iff in Hab as [Ha Hs].
    destruct s as [|b s]; [discriminate Hs|]. simpl in Hs.
    rewrite replace_pair_skip by assumption. simpl. by rewrite Ha.
  - by rewrite replace_pair_keep.
Qed.

(** One pass of [replace('__', '_')] shortens runs of underscores and
    leaves every run in place: collapsing afterwards gives what
    collapsing the original gives. *)
Lemma collapse_replace_pair (s : string) :
  collapse (PyStr.replace "__" "_" s) = collapse s ∧
  (∀ a, collapse (PyStr.replace "__" "_" (String a s)) = collapse (String a s)).
Proof.
  induction s as [|b s [IH1 IH2]].
  - split; [reflexivity|]. intros a.
    by rewrite replace_pair_keep by (simpl; apply andb_false_r).
  - split; [apply IH2|]. intros a.
    destruct (Ascii.eqb a "_" && starts_with_underscore (String b s)) eqn:Hab.
    + apply andb_true_iff in Hab as [Ha Hb]. simpl in Hb.
      rewrite replace_pair_skip by assumption.
      rewrite (collapse_cons a), Ha. simpl starts_with_underscore. rewrite Hb. simpl.
      rewrite starts_with_underscore_replace, IH1, Hb.
      apply Ascii.eqb_eq in Hb. subst b. reflexivity.
    + rewrite replace_pair_keep by assumption.
      rewrite (collapse_cons a (PyStr.replace "__" "_" (String b s))).
      rewrite starts_with_underscore_replace, Hab, IH2.
      by rewrite (collapse_cons a), Hab.
Qed.

Lemma starts_with_underscore_collapse (s : string) :
  starts_with_underscore (collapse s) = starts_with_underscore s.
Proof.
  induction s as [|a s IH]; [reflexivity|].
  rewrite collapse_cons.
  destruct (Ascii.eqb a "_" && starts_with_underscore s) eqn:Hab; [|reflexivity].
  apply andb_true_iff in Hab as [Ha Hs]. rewrite IH, Hs. simpl. by rewrite Ha.
Qed.

Lemma collapse_lstrip (s : string) :
  collapse (PyStr.lstrip "_" s) = PyStr.lstrip "_" (collapse s).
Proof.
  induction s as [|a s IH]; [reflexivity|].
  rewrite collapse_cons. simpl PyStr.lstrip.
  destruct (Ascii.eqb a "_") eqn:Ha; simpl andb.
  - destruct (starts_with_underscore s); [exact IH|].
    simpl. by rewrite Ha.
  - rewrite collapse_cons, Ha. simpl. by rewrite Ha.
Qed.

Lemma rstrip_cons (a : ascii) (s : string) :
  PyStr.rstrip "_" (String a s) =
  match PyStr.rstrip "_" s with
  | EmptyString => if Ascii.eqb a "_" then EmptyString else String a EmptyString
  | String b r => String a (String b r)
  end.
Proof. reflexivity. Qed.

Lemma rstrip_starts (s : string) :
  PyStr.rstrip "_" s ≠ EmptyString →
  starts_with_underscore (PyStr.rstrip "_" s) = starts_with_underscore s.
Proof.
  destruct s as [|a s]; [done|]. rewrite rstrip_cons.
  destruct (PyStr.rstrip "_" s); [|done].
  destruct (Ascii.eqb a "_") eqn:Ha; [done|]. intros _. simpl. by rewrite Ha.
Qed.

Lemma rstrip_empty_starts (s : string) :
  PyStr.rstrip "_" s = EmptyString → starts_with_underscore s = false → s = EmptyString.
Proof.
  destruct s as [|a s]; [done|]. rewrite rstrip_cons. simpl.
  destruct (PyStr.rstrip "_" s); [|done].
  destruct (Ascii.eqb a "_"); done.
Qed.

Lemma collapse_nonempty (a : ascii) (s : string) : collapse (String a s) ≠ EmptyString.
Proof.
  revert a. induction s as [|b s IH]; intros a.
  - rewrite collapse_cons. simpl. by rewrite andb_false_r.
  - rewrite collapse_cons. destruct (_ && _); [apply IH|done].
Qed.

Lemma collapse_rstrip (s : string) :
  collapse (PyStr.rstrip "_" s) = PyStr.rstrip "_" (collapse s).
Proof.
  induction s as [|a s IH]; [reflexivity|].
  rewrite rstrip_cons, (collapse_cons a s).
  destruct (PyStr.rstrip "_" s) as [|b r] eqn:Hr.
  - simpl in IH.
    destruct (Ascii.eqb a "_") eqn:Ha; simpl andb.
    + destruct (starts_with_underscore s) eqn:Hs; [exact IH|].
      rewrite (rstrip_empty_starts s Hr Hs). simpl. by rewrite Ha.
    + cbv iota. rewrite rstrip_cons, <- IH, Ha. rewrite collapse_cons. simpl.
      by rewrite andb_false_r.
  - assert (Hst : starts_with_underscore (String b r) = starts_with_underscore s).
    { rewrite <- Hr. apply rstrip_starts. by rewrite Hr. }
    rewrite (collapse_cons a (String b r)), Hst.
    destruct (Ascii.eqb a "_" && starts_with_underscore s); [exact IH|].
    cbv iota. rewrite rstrip_cons, <- IH.
    pose proof (collapse_nonempty b r) as Hne.
    by destruct (collapse (String b r)).
Qed.

Lemma length_substitute (s : string) :
  String.length (substitute s) = String.length s.
Proof. induction s as [|a s IH]; [reflexivity|]. simpl. by rewrite IH. Qed.

Lemma length_replace_pair (skip : nat) (s : string) :
  (String.length (PyStr.replace_from "__" "_" skip s) ≤ String.length s)%nat.
Proof.
  revert skip. induction s as [|a s IH]; intros skip; [reflexivity|].
  simpl. destruct skip as [|k].
  - match goal with
    | |- context [String.length (if ?c then _ else _)] => destruct c
    end; simpl.
    + specialize (IH 1).
      change ("" +:+ PyStr.replace_from "__" "_" 1 s)
        with (PyStr.replace_from "__" "_" 1 s).
      lia.
    + specialize (IH 0). lia.
  - specialize (IH k). lia.
Qed.

Lemma length_lstrip (c : ascii) (s : string) :
  (String.length (PyStr.lstrip c s) ≤ String.length s)%nat.
Proof.
  induction s as [|a s IH]; [reflexivity|]. simpl.
  destruct (Ascii.eqb a c); simpl; lia.
Qed.

Lemma length_rstrip (c : ascii) (s : string) :
  (String.length (PyStr.rstrip c s) ≤ String.length s)%nat.
Proof.
  induction s as [|a s IH]; [reflexivity|]. simpl.
  destruct (PyStr.rstrip c s) as [|b r].
  - destruct (Ascii.eqb a c); simpl; lia.
  - simpl in *. lia.
Qed.

(** The derived id for every method and path: collapsing the runs of
    underscores it still has gives the described id, and it is no
    longer than the string it is derived from. *)
Lemma derived_operation_id_collapsed (method path : string) :
  collapse (derived_operation_id method path) = described_id method path ∧
  (String.length (derived_operation_id method path) ≤
     String.length (method +:+ "_" +:+ path))%nat.
Proof.
  unfold derived_operation_id, described_id, PyStr.strip.
  rewrite replace_separators. split.
  - by rewrite collapse_rstrip, collapse_lstrip, (proj1 (collapse_replace_pair _)).
  - etrans; [apply length_rstrip|]. etrans; [apply length_lstrip|].
    etrans; [apply length_replace_pair|]. by rewrite length_substitute.
Qed.

(** Once computed, the id is returned from [_operation_id]. *)
Lemma operation_id_memoized (self : Operation) :
  operation_id (operation_id self).1 = operation_id self.
Proof.
  unfold operation_id.
  destruct (_operation_id self) eqn:Hm; simpl; [by rewrite Hm|].
  destruct (operationId (op_spec self)); reflexivity.
Qed.

End OperationId.

Example derived_id_of_get_pet :
  derived_operation_id "get" "/pet/{petId}" = "get_pet_petId".
Proof. reflexivity. Qed.

(** C6, as stated, fails.  The method is used as it is given, it is not
    lowercased: for [GET] and [/pet/{petId}] without an explicit
    [operationId] the property yields [GET_pet_petId] where the described
    id is [get_pet_petId].  And [replace('__', '_')] is a single pass:
    for [get] and [/repos/{owner}/{repo}] the run of three underscores
    between the placeholders keeps two of them. *)
Lemma operation_id_keeps_method_case :
  (operationId (op_spec Sample.upper_get_pet) = None ∧
   (operation_id Sample.upper_get_pet).2 = "GET_pet_petId" ∧
   IdSpec.spec_operation_id "GET" "/pet/{petId}" = "get_pet_petId" ∧
   (operation_id Sample.upper_get_pet).2 ≠
     IdSpec.spec_operation_id (http_method Sample.upper_get_pet)
       (path_name Sample.upper_get_pet)) ∧
  (operationId (op_spec Sample.get_repo) = None ∧
   (operation_id Sample.get_repo).2 = "get_repos_owner__repo" ∧
   IdSpec.spec_operation_id "get" "/repos/{owner}/{repo}" = "get_repos_owner_repo" ∧
   (operation_id Sample.get_repo).2 ≠
     IdSpec.spec_operation_id (http_method Sample.get_repo)
       (path_name Sample.get_repo)).
Proof. repeat split; try reflexivity; discriminate. Qed.

(** C6 (amended): on first access, an explicit [operationId] is returned
    verbatim.  Without one, the id is built from the method as given, an
    underscore and the path, with ['/'], ['{'], ['}'] replaced by ['_'],
    runs of underscores shortened and the ends trimmed: for every method
    and path, collapsing the runs of underscores the id still has gives
    the described id (method as given), and the id is no longer than
    method, underscore and path together.  Whenever the substituted
    string has no run of three or more underscores the id is the
    described id itself (and the one of the specification if the method
    is already lower case); [get] with [/pet/{petId}] yields
    [get_pet_petId]. *)
Theorem operation_id_first_access (self : Operation) :
  _operation_id self = None →
  (∀ i, operationId (op_spec self) = Some i → (operation_id self).2 = i) ∧
  (operationId (op_spec self) = None →
     (IdSpec.collapse (operation_id self).2 =
        IdSpec.described_id (http_method self) (path_name self) ∧
      (String.length (operation_id self).2 ≤
         String.length (http_method self +:+ "_" +:+ path_name self))%nat) ∧
     (IdSpec.no_triple
        (IdSpec.substitute (http_method self +:+ "_" +:+ path_name self)) = true →
      (operation_id self).2 = IdSpec.described_id (http_method self) (path_name self) ∧
      (PyStr.lower (http_method self) = http_method self →
       (operation_id self).2 =
         IdSpec.spec_operation_id (http_method self) (path_name self))) ∧
     (http_method self = "get" → path_name self = "/pet/{petId}" →
      (operation_id self).2 = "get_pet_petId")).
Proof.
  intros Hm. unfold operation_id. rewrite Hm. split.
  - intros i Hi. by rewrite Hi.
  - intros Hi. rewrite Hi. simpl. split; [|split].
    + apply derived_operation_id_collapsed.
    + intros Hn. rewrite derived_operation_id_described by exact Hn.
      split; [reflexivity|].
      intros Hl. unfold IdSpec.spec_operation_id. by rewrite Hl.
    + intros -> ->. reflexivity.
Qed.

Lemma operation_id_first_access_witness :
  (operation_id Sample.get_pet_bare).2 =
    IdSpec.spec_operation_id "get" "/pet/{petId}" ∧
  (operation_id Sample.get_pet_bare).2 = "get_pet_petId" ∧
  (operation_id Sample.get_pet_named).2 = "getPetById" ∧
  IdSpec.collapse (operation_id Sample.get_repo).2 =
    IdSpec.described_id "get" "/repos/{owner}/{repo}".
Proof.
  destruct (operation_id_first_access Sample.get_pet_bare eq_refl) as [_ Hd].
  destruct (Hd eq_refl) as (_ & Hn & Hex).
  destruct (Hn eq_refl) as [_ Hl].
  split; [exact (Hl eq_refl)|].
  split; [exact (Hex eq_refl eq_refl)|].
  split.
  - exact (proj1 (operation_id_first_access Sample.get_pet_named eq_refl)
             "getPetById" eq_refl).
  - destruct (operation_id_first_access Sample.get_repo eq_refl) as [_ Hr].
    destruct (Hr eq_refl) as ((Hc & _) & _). exact Hc.
Defined.

(** ** Dict objects *)

Section Store.

Implicit Types (h : store) (d l : loc) (m : pdict).

Lemma deref_insert_eq h d m : deref (<[d := m]> h) d = m.
Proof. unfold deref. by rewrite lookup_insert_eq. Qed.

Lemma deref_insert_ne h d l m : d ≠ l → deref (<[d := m]> h) l = deref h l.
Proof. intros Hne. unfold deref. by rewrite lookup_insert_ne. Qed.

Lemma fresh_not_allocated h l : is_Some (h !! l) → fresh (dom h) ≠ l.
Proof.
  intros Hl Heq. apply elem_of_dom in Hl. rewrite <- Heq in Hl.
  by apply is_fresh in Hl.
Qed.

Lemma dict_copy_deref h d :
  deref (dict_copy h d).2 (dict_copy h d).1 = deref h d.
Proof. unfold dict_copy. simpl. apply deref_insert_eq. Qed.

Lemma dict_copy_frame h d l :
  is_Some (h !! l) → (dict_copy h d).2 !! l = h !! l ∧ (dict_copy h d).1 ≠ l.
Proof.
  intros Hl. unfold dict_copy. simpl.
  pose proof (fresh_not_allocated h l Hl) as Hne.
  split; [by apply lookup_insert_ne|done].
Qed.

Lemma dict_pop_frame h d k l : d ≠ l → (dict_pop h d k).2 !! l = h !! l.
Proof.
  intros Hne. unfold dict_pop.
  destruct (deref h d !! k); simpl; [by rewrite lookup_insert_ne|done].
Qed.

Lemma dict_pop_value h d k : (dict_pop h d k).1 = deref h d !! k.
Proof. unfold dict_pop. by destruct (deref h d !! k). Qed.

Lemma dict_pop_deref h d k : deref (dict_pop h d k).2 d = delete k (deref h d).
Proof.
  unfold dict_pop. destruct (deref h d !! k) eqn:Hk; simpl.
  - apply deref_insert_eq.
  - symmetry. by apply delete_id.
Qed.

End Store.

(** ** Building the parameter set *)

Section BuildParams.

Implicit Types (h : store) (d l : loc) (sp : Spec) (specs : list param_spec).

Lemma build_params_loop_deref sp d specs h :
  deref (build_params_loop sp d specs h) d = inserted sp specs (deref h d).
Proof.
  revert h. induction specs as [|ps specs IH]; intros h; [reflexivity|].
  simpl. rewrite IH. unfold dict_setitem. by rewrite deref_insert_eq.
Qed.

Lemma build_params_loop_frame sp d specs h l :
  d ≠ l → build_params_loop sp d specs h !! l = h !! l.
Proof.
  intros Hne. revert h. induction specs as [|ps specs IH]; intros h; [reflexivity|].
  simpl. rewrite IH. unfold dict_setitem. by rewrite lookup_insert_ne.
Qed.

Lemma inserted_app sp specs1 specs2 m :
  inserted sp (specs1 ++ specs2)%list m = inserted sp specs2 (inserted sp specs1 m).
Proof. apply foldl_app. Qed.

Lemma dom_inserted sp specs m :
  dom (inserted sp specs m) = dom m ∪ list_to_set (ps_name <$> specs).
Proof.
  revert m. induction specs as [|ps specs IH]; intros m; simpl.
  - set_solver.
  - rewrite IH, dom_insert_L. set_solver.
Qed.

(** Last write wins: a name declared in [specs] is bound to the Param
    of one of these declarations, whatever was there before. *)
Lemma lookup_inserted_in sp specs m n :
  n ∈ ps_name <$> specs →
  ∃ ps, ps ∈ specs ∧ ps_name ps = n ∧
        inserted sp specs m !! n = Some (Param_new sp ps).
Proof.
  revert m. induction specs as [|ps specs IH]; intros m Hn; simpl in *.
  - by apply elem_of_nil in Hn.
  - destruct (decide (n ∈ ps_name <$> specs)) as [Hin|Hnin].
    + destruct (IH (<[ps_name ps := Param_new sp ps]> m) Hin) as (ps' & ? & ? & ?).
      exists ps'. split; [by apply elem_of_cons; right|done].
    + apply elem_of_cons in Hn as [->|Hn]; [|done].
      exists ps. split; [by apply elem_of_cons; left|]. split; [done|].
      assert (Hkeep : ∀ m', inserted sp specs m' !! ps_name ps = m' !! ps_name ps).
      { clear IH. revert Hnin.
        induction specs as [|ps' specs IH']; intros Hnin m'; [done|].
        simpl. rewrite IH'.
        - apply lookup_insert_ne. intros Heq. apply Hnin. simpl.
          apply elem_of_cons. by left.
        - intros Hin. apply Hnin. simpl. apply elem_of_cons. by right. }
      rewrite Hkeep. apply lookup_insert_eq.
Qed.

Lemma lookup_inserted_name sp specs m n p :
  (∀ k q, m !! k = Some q → name q = k) →
  inserted sp specs m !! n = Some p → name p = n.
Proof.
  revert m. induction specs as [|ps specs IH]; intros m Hm; simpl.
  - apply Hm.
  - apply IH. intros k q. rewrite lookup_insert.
    case_decide as Hk; [|apply Hm].
    intros [= <-]. by rewrite <- Hk.
Qed.

(** What [build_params] does when the paths table lists the path. *)
Lemma build_params_listed (self : Operation) h table path_specs :
  paths (spec_dict (swagger_spec self)) = Some table →
  table !! path_name self = Some path_specs →
  let OP := default [] (parameters (op_spec self)) in
  let PP := default [] (path_parameters path_specs) in
  (build_params self h).2 = Return () ∧
  deref (build_params self h).1.2 (params (build_params self h).1.1) =
    inserted (swagger_spec self) PP (inserted (swagger_spec self) OP ∅).
Proof.
  intros Hp Ht OP PP. unfold build_params. simpl. rewrite Hp, Ht. simpl.
  split; [done|].
  rewrite build_params_loop_deref, deref_insert_eq. apply inserted_app.
Qed.

(** The key set is the union of the operation-level and the path-level
    names. *)
Lemma build_params_keys (self : Operation) h table path_specs :
  paths (spec_dict (swagger_spec self)) = Some table →
  table !! path_name self = Some path_specs →
  dom (deref (build_params self h).1.2 (params (build_params self h).1.1)) =
    list_to_set (ps_name <$> default [] (parameters (op_spec self))) ∪
    list_to_set (ps_name <$> default [] (path_parameters path_specs)).
Proof.
  intros Hp Ht.
  destruct (build_params_listed self h table path_specs Hp Ht) as [_ ->].
  rewrite !dom_inserted. set_solver.
Qed.

(** On a name collision the path-level declaration is the one kept: it
    is inserted after the operation-level one. *)
Lemma build_params_path_level_kept (self : Operation) h table path_specs n :
  paths (spec_dict (swagger_spec self)) = Some table →
  table !! path_name self = Some path_specs →
  n ∈ ps_name <$> default [] (path_parameters path_specs) →
  ∃ ps, ps ∈ default [] (path_parameters path_specs) ∧ ps_name ps = n ∧
    deref (build_params self h).1.2 (params (build_params self h).1.1) !! n =
      Some (Param_new (swagger_spec self) ps).
Proof.
  intros Hp Ht Hn.
  destruct (build_params_listed self h table path_specs Hp Ht) as [_ ->].
  by apply lookup_inserted_in.
Qed.

(** Every Param is stored under its own name. *)
Lemma build_params_keyed_by_name (self : Operation) h table path_specs n p :
  paths (spec_dict (swagger_spec self)) = Some table →
  table !! path_name self = Some path_specs →
  deref (build_params self h).1.2 (params (build_params self h).1.1) !! n = Some p →
  name p = n.
Proof.
  intros Hp Ht.
  destruct (build_params_listed self h table path_specs Hp Ht) as [_ ->].
  apply lookup_inserted_name. intros k q Hk.
  apply lookup_inserted_name in Hk; [done|]. intros ? ?. by rewrite lookup_empty.
Qed.

End BuildParams.

(** C1: the key set is the union of both name lists, but on a collision
    the code keeps the path-level Param.  Here the path declares [petId]
    as an optional query parameter and the operation declares it as a
    required path parameter: [build_params] succeeds with the single key
    [petId], bound to the Param of the path-level declaration and not to
    the one of the operation-level declaration. *)
Theorem build_params_collision_keeps_path_level :
  (build_params Sample.colliding_operation ∅).2 = Return () ∧
  dom (deref (build_params Sample.colliding_operation ∅).1.2
             (params (build_params Sample.colliding_operation ∅).1.1)) = {["petId"]} ∧
  deref (build_params Sample.colliding_operation ∅).1.2
        (params (build_params Sample.colliding_operation ∅).1.1) !! "petId" =
    Some (Param_new Sample.colliding_store Sample.petId_in_query) ∧
  Param_new Sample.colliding_store Sample.petId_in_query ≠
    Param_new Sample.colliding_store Sample.petId_in_path.
Proof.
  split; [reflexivity|]. split; [|split].
  - erewrite build_params_keys by reflexivity. simpl. set_solver.
  - destruct (build_params_listed Sample.colliding_operation ∅ _ _ eq_refl eq_refl)
      as [_ ->].
    simpl. unfold inserted. simpl. apply lookup_insert_eq.
  - discriminate.
Qed.

(** C8, as stated, fails: for a path the paths table does not list,
    [build_params] fails, but with no SpecValidationError. *)
Lemma build_params_unknown_path_not_SpecValidationError :
  (∃ table, paths (spec_dict (swagger_spec Sample.store_inventory)) = Some table ∧
            table !! path_name Sample.store_inventory = None) ∧
  ¬ ∃ msg, (build_params Sample.store_inventory ∅).2 =
             Raise (Exn SpecValidationError msg).
Proof.
  split.
  - eexists. split; [reflexivity|]. unfold Sample.store_inventory. simpl.
    by rewrite lookup_insert_ne, lookup_empty.
  - intros [msg Hmsg]. unfold build_params in Hmsg. simpl in Hmsg.
    rewrite lookup_insert_ne, lookup_empty in Hmsg by done. discriminate.
Qed.

(** C8 (amended): when the paths table does not list the operation's
    path, [build_params] (and [from_spec], which calls it) fails with the
    built-in KeyError for the missing key; by then [self.params] is
    already rebound to a new empty dict. *)
Theorem build_params_unknown_path (self : Operation) (h : store)
    (table : gmap string PathSpec) :
  paths (spec_dict (swagger_spec self)) = Some table →
  table !! path_name self = None →
  (build_params self h).2 = Raise (Exn KeyError (path_name self)) ∧
  deref (build_params self h).1.2 (params (build_params self h).1.1) = ∅ ∧
  (from_spec h (swagger_spec self) (path_name self) (http_method self) (op_spec self)).2 =
    Raise (Exn KeyError (path_name self)).
Proof.
  intros Hp Ht. unfold from_spec, build_params. simpl. rewrite Hp, Ht. simpl.
  split; [done|]. split; [|done]. apply deref_insert_eq.
Qed.

Lemma build_params_unknown_path_witness :
  (build_params Sample.store_inventory ∅).2 = Raise (Exn KeyError "/store/inventory").
Proof.
  refine (proj1 (build_params_unknown_path Sample.store_inventory ∅ _ _ _)).
  - reflexivity.
  - unfold Sample.store_inventory. simpl. by rewrite lookup_insert_ne, lookup_empty.
Defined.

(** ** Marshaling the call arguments *)

Section ConstructParams.

Context `{DictOrder}.
Variable marshal_param : Param → pyval → Request → Request * option exn.

Implicit Types (h : store) (d l cp : loc) (m : gmap string Param)
  (items : list (string * pyval)) (request : Request) (self : Operation)
  (op_kwargs : gmap string pyval).

Lemma iteritems_NoDup {A : Type} (kw : gmap string A) : NoDup (iteritems kw).*1.
Proof.
  rewrite (iteritems_perm A kw). apply NoDup_fst_map_to_list.
Qed.

Lemma elem_of_iteritems {A : Type} (kw : gmap string A) (k : string) (v : A) :
  (k, v) ∈ iteritems kw ↔ kw !! k = Some v.
Proof.
  rewrite (iteritems_perm A kw). apply elem_of_map_to_list.
Qed.

Lemma elem_of_iteritems_keys {A : Type} (kw : gmap string A) (k : string) :
  k ∈ (iteritems kw).*1 ↔ is_Some (kw !! k).
Proof.
  rewrite list_elem_of_fmap. split.
  - intros ([k' v] & -> & Hin). apply elem_of_iteritems in Hin. by exists v.
  - intros [v Hv]. exists (k, v). split; [done|]. by apply elem_of_iteritems.
Qed.

Lemma elem_of_itervalues {A : Type} (kw : gmap string A) (v : A) :
  v ∈ itervalues kw ↔ ∃ k, kw !! k = Some v.
Proof.
  unfold itervalues. rewrite list_elem_of_fmap. split.
  - intros ([k v'] & -> & Hin). apply elem_of_iteritems in Hin. by exists k.
  - intros [k Hk]. exists (k, v). split; [done|]. by apply elem_of_iteritems.
Qed.

(** The first loop touches the store only at [current_params], leaves
    the object alone except for memoizing the operation id, and is
    [consume_items] on the dict contents. *)
Lemma consume_kwargs_items self cp items h request :
  let r := consume_kwargs marshal_param self cp items h request in
  let q := consume_items marshal_param (operation_id self).2 (deref h cp) items request in
  r.1.2 = q.1.2 ∧ r.2 = q.2 ∧ deref r.1.1.2 cp = q.1.1 ∧
  (∀ l, cp ≠ l → r.1.1.2 !! l = h !! l) ∧
  (r.1.1.1 = self ∨ r.1.1.1 = (operation_id self).1).
Proof.
  revert h request. induction items as [|[k v] items IH]; intros h request; simpl.
  - repeat split; auto.
  - pose proof (dict_pop_value h cp k) as Hv.
    pose proof (dict_pop_deref h cp k) as Hd.
    pose proof (dict_pop_frame h cp k) as Hf.
    destruct (dict_pop h cp k) as [o h1]. simpl in Hv, Hd, Hf. subst o.
    destruct (deref h cp !! k) as [p|] eqn:Hk.
    + destruct (marshal_param p v request) as [request1 [e|]] eqn:Hmp; simpl.
      * repeat split; auto.
      * specialize (IH h1 request1). simpl in IH. rewrite Hd in IH.
        destruct IH as (? & ? & ? & Hfr & ?).
        repeat split; auto. intros l Hl. rewrite Hfr by done. by apply Hf.
    + destruct (operation_id self) as [self1 i] eqn:Hid. simpl.
      rewrite delete_id in Hd by done.
      repeat split; auto.
Qed.

Lemma consume_items_unknown i m items request :
  NoDup items.*1 →
  (∃ k, k ∈ items.*1 ∧ m !! k = None) →
  ∃ e, (consume_items marshal_param i m items request).2 = Some e ∧
    ((∃ k, k ∈ items.*1 ∧ m !! k = None ∧
           e = Exn TypeError (i +:+ " does not have parameter " +:+ k)) ∨
     (∃ k v p r, (k, v) ∈ items ∧ m !! k = Some p ∧
           (marshal_param p v r).2 = Some e)).
Proof.
  revert m request. induction items as [|[k0 v0] items IH]; intros m request Hnd Hex.
  - destruct Hex as (k & Hk & _). by apply elem_of_nil in Hk.
  - simpl in *. apply NoDup_cons in Hnd as [Hk0 Hnd].
    destruct (m !! k0) as [p|] eqn:Hm0.
    + destruct (marshal_param p v0 request) as [request1 [e|]] eqn:Hmp; simpl.
      * exists e. split; [done|]. right. exists k0, v0, p, request.
        split; [apply elem_of_cons; by left|]. by rewrite Hmp.
      * destruct (IH (delete k0 m) request1 Hnd) as (e & He & Hcases).
        { destruct Hex as (k & Hk & Hmk).
          apply elem_of_cons in Hk as [->|Hk]; [congruence|].
          exists k. split; [done|]. rewrite lookup_delete_ne; [done|].
          intros <-. done. }
        exists e. split; [done|].
        destruct Hcases as [(k & Hk & Hmk & ->)|(k & v & p' & r & Hin & Hmk & Hr)].
        -- left. exists k. split; [apply elem_of_cons; by right|]. split; [|done].
           rewrite lookup_delete_ne in Hmk; [done|]. intros <-. done.
        -- right. exists k, v, p', r. split; [apply elem_of_cons; by right|].
           split; [|done].
           apply lookup_delete_Some in Hmk. tauto.
    + simpl. eexists. split; [done|]. left. exists k0.
      split; [apply elem_of_cons; by left|]. done.
Qed.

Lemma supplied_calls_cons m k v items :
  supplied_calls m ((k, v) :: items) =
  match m !! k with
  | Some p => (p, v) :: supplied_calls m items
  | None => supplied_calls m items
  end.
Proof. unfold supplied_calls. simpl. by destruct (m !! k). Qed.

Lemma supplied_calls_cons_known m k v p items :
  m !! k = Some p →
  supplied_calls m ((k, v) :: items) = (p, v) :: supplied_calls m items.
Proof. intros Hk. by rewrite supplied_calls_cons, Hk. Qed.

Lemma supplied_calls_delete m k items :
  k ∉ items.*1 → supplied_calls (delete k m) items = supplied_calls m items.
Proof.
  intros Hk. induction items as [|[k' v'] items IH]; [done|].
  simpl in Hk. apply not_elem_of_cons in Hk as [Hne Hk].
  rewrite !supplied_calls_cons, lookup_delete_ne by done. by rewrite IH.
Qed.

Lemma consume_items_known i m items request :
  NoDup items.*1 →
  (∀ k, k ∈ items.*1 → is_Some (m !! k)) →
  let q := consume_items marshal_param i m items request in
  (q.1.2, q.2) = marshal_all marshal_param (supplied_calls m items) request ∧
  (q.2 = None → ∀ k, q.1.1 !! k = if decide (k ∈ items.*1) then None else m !! k).
Proof.
  revert m request.
  induction items as [|[k0 v0] items IH]; intros m request Hnd Hall q; subst q.
  - split; [done|]. intros _ k. simpl fmap.
    case_decide as Hc; [by apply elem_of_nil in Hc|done].
  - rewrite fmap_cons in Hnd, Hall. apply NoDup_cons in Hnd as [Hk0 Hnd].
    destruct (Hall k0) as [p Hp]; [apply elem_of_cons; by left|].
    rewrite (supplied_calls_cons_known m k0 v0 p items Hp).
    cbn [consume_items marshal_all]. rewrite Hp.
    destruct (marshal_param p v0 request) as [request1 [e|]] eqn:Hmp.
    + split; done.
    + destruct (IH (delete k0 m) request1 Hnd) as [Heq Hrem].
      { intros k Hk. rewrite lookup_delete_ne; [apply Hall; apply elem_of_cons; by right|].
        intros <-. done. }
      rewrite supplied_calls_delete in Heq by done.
      split; [exact Heq|]. intros Hnone k. rewrite (Hrem Hnone k), fmap_cons.
      destruct (decide (k ∈ items.*1)) as [Hin|Hnin];
        destruct (decide (k ∈ (k0, v0).1 :: items.*1)) as [Hin'|Hnin']; simpl in *.
      * done.
      * exfalso. apply Hnin'. apply elem_of_cons. by right.
      * apply elem_of_cons in Hin' as [->|Hin']; [apply lookup_delete_eq|done].
      * apply lookup_delete_ne. intros <-. apply Hnin'. apply elem_of_cons. by left.
Qed.

Lemma marshal_all_app calls1 calls2 request :
  marshal_all marshal_param (calls1 ++ calls2) request =
  match marshal_all marshal_param calls1 request with
  | (request1, None) => marshal_all marshal_param calls2 request1
  | (request1, Some e) => (request1, Some e)
  end.
Proof.
  revert request. induction calls1 as [|[p v] calls1 IH]; intros request; [done|].
  simpl. destruct (marshal_param p v request) as [request1 [e|]]; [done|]. apply IH.
Qed.

Lemma check_remaining_required (remaining : list Param) request p :
  p ∈ remaining → required p = true →
  ∃ e, (check_remaining marshal_param remaining request).2 = Some e ∧
    ((∃ p', p' ∈ remaining ∧ required p' = true ∧
            e = Exn TypeError (name p' +:+ " is a required parameter")) ∨
     (∃ p' r, p' ∈ remaining ∧ required p' = false ∧ has_default p' = true ∧
            (marshal_param p' PNone r).2 = Some e)).
Proof.
  revert request. induction remaining as [|p0 remaining IH]; intros request Hin Hreq.
  - by apply elem_of_nil in Hin.
  - simpl. destruct (required p0) eqn:Hr0; simpl.
    + eexists. split; [done|]. left. exists p0.
      split; [apply elem_of_cons; by left|]. done.
    + apply elem_of_cons in Hin as [->|Hin]; [congruence|].
      assert (Hlift : ∀ request1,
        ∃ e, (check_remaining marshal_param remaining request1).2 = Some e ∧
          ((∃ p', p' ∈ p0 :: remaining ∧ required p' = true ∧
                  e = Exn TypeError (name p' +:+ " is a required parameter")) ∨
           (∃ p' r, p' ∈ p0 :: remaining ∧ required p' = false ∧ has_default p' = true ∧
                  (marshal_param p' PNone r).2 = Some e))).
      { intros request1. destruct (IH request1 Hin Hreq) as (e & He & Hc).
        exists e. split; [done|].
        destruct Hc as [(p' & ? & ? & ?)|(p' & r & ? & ? & ? & ?)].
        - left. exists p'. split; [apply elem_of_cons; by right|done].
        - right. exists p', r. split; [apply elem_of_cons; by right|done]. }
      destruct (has_default p0) eqn:Hd0; [|apply Hlift].
      destruct (marshal_param p0 PNone request) as [request1 [e|]] eqn:Hmp; [|apply Hlift].
      simpl. exists e. split; [done|]. right. exists p0, request.
      split; [apply elem_of_cons; by left|]. by rewrite Hmp.
Qed.

Lemma default_calls_cons (p : Param) (remaining : list Param) :
  default_calls (p :: remaining) =
  if negb (required p) && has_default p
  then (p, PNone) :: default_calls remaining
  else default_calls remaining.
Proof.
  unfold default_calls. rewrite filter_cons.
  destruct (negb (required p) && has_default p) eqn:Hb.
  - rewrite decide_True by done. done.
  - rewrite decide_False by (simpl; tauto). done.
Qed.

Lemma check_remaining_optional (remaining : list Param) request :
  (∀ p, p ∈ remaining → required p = false) →
  check_remaining marshal_param remaining request =
  marshal_all marshal_param (default_calls remaining) request.
Proof.
  revert request. induction remaining as [|p0 remaining IH]; intros request Hopt; [done|].
  simpl. rewrite default_calls_cons.
  rewrite (Hopt p0) by (apply elem_of_cons; by left). simpl.
  assert (Hrest : ∀ p, p ∈ remaining → required p = false).
  { intros p Hp. apply Hopt. apply elem_of_cons. by right. }
  destruct (has_default p0); simpl; [|by apply IH].
  destruct (marshal_param p0 PNone request) as [request1 [e|]]; [done|]. by apply IH.
Qed.


(** [construct_params] in terms of the dict [self.params] refers to:
    the request and the exception come from the two loops on the dict
    contents, the object changes at most by the memoized id, and no
    dict object that exists before the call is touched. *)
Lemma construct_params_items self h request op_kwargs :
  let r := construct_params marshal_param self h request op_kwargs in
  let q := consume_items marshal_param (operation_id self).2 (deref h (params self))
             (iteritems op_kwargs) request in
  (r.1.2, r.2) =
    match q.2 with
    | Some e => (q.1.2, Some e)
    | None => check_remaining marshal_param (itervalues q.1.1) q.1.2
    end ∧
  memoized_from self r.1.1.1 ∧
  (∀ l, is_Some (h !! l) → r.1.1.2 !! l = h !! l).
Proof.
  intros r q. subst r q. unfold construct_params.
  pose proof (dict_copy_deref h (params self)) as Hcopy.
  pose proof (dict_copy_frame h (params self)) as Hframe.
  destruct (dict_copy h (params self)) as [cp h0]. simpl in Hcopy, Hframe.
  pose proof (consume_kwargs_items self cp (iteritems op_kwargs) h0 request) as Hloop.
  simpl in Hloop. rewrite Hcopy in Hloop.
  destruct (consume_kwargs marshal_param self cp (iteritems op_kwargs) h0 request)
    as [[[self1 h1] request1] r1].
  simpl in Hloop. destruct Hloop as (Hreq & Hexn & Hdict & Hfr & Hself).
  rewrite <- Hexn, <- Hreq, <- Hdict.
  assert (Hstore : ∀ l, is_Some (h !! l) → h1 !! l = h !! l).
  { intros l Hl. destruct (Hframe l Hl) as [Hl0 Hne]. by rewrite Hfr. }
  destruct r1 as [e|]; simpl; [done|].
  destruct (check_remaining marshal_param (itervalues (deref h1 cp)) request1)
    as [request2 r2]. done.
Qed.

(** Memoizing the id changes no other attribute, and not the id. *)
Lemma memoized_from_attrs self self' :
  memoized_from self self' →
  swagger_spec self' = swagger_spec self ∧ path_name self' = path_name self ∧
  http_method self' = http_method self ∧ op_spec self' = op_spec self ∧
  params self' = params self ∧ (operation_id self').2 = (operation_id self).2.
Proof.
  intros [->| ->]; [done|].
  rewrite operation_id_memoized. unfold operation_id.
  destruct (_operation_id self); [done|].
  by destruct (operationId (op_spec self)).
Qed.

Lemma memoized_from_trans self self1 self2 :
  memoized_from self self1 → memoized_from self1 self2 → memoized_from self self2.
Proof.
  intros [->| ->]; [done|]. intros [->| ->]; [by right|].
  right. by rewrite operation_id_memoized.
Qed.

Lemma construct_params_unknown self h request op_kwargs n :
  is_Some (op_kwargs !! n) →
  deref h (params self) !! n = None →
  ∃ e, (construct_params marshal_param self h request op_kwargs).2 = Some e ∧
    ((∃ n', is_Some (op_kwargs !! n') ∧ deref h (params self) !! n' = None ∧
        e = Exn TypeError
              ((operation_id self).2 +:+ " does not have parameter " +:+ n')) ∨
     (∃ k v p r, op_kwargs !! k = Some v ∧ deref h (params self) !! k = Some p ∧
        (marshal_param p v r).2 = Some e)).
Proof.
  intros Hn Hm.
  destruct (construct_params_items self h request op_kwargs) as (Hres & _ & _).
  destruct (consume_items_unknown (operation_id self).2 (deref h (params self))
              (iteritems op_kwargs) request (iteritems_NoDup op_kwargs))
    as (e & He & Hcases).
  { exists n. split; [by apply elem_of_iteritems_keys|done]. }
  rewrite He in Hres. exists e. split; [by inversion Hres|].
  destruct Hcases as [(k & Hk & Hmk & ->)|(k & v & p & r & Hin & Hmk & Hr)].
  - left. exists k. split; [by apply elem_of_iteritems_keys|done].
  - right. exists k, v, p, r. split; [by apply elem_of_iteritems|done].
Qed.

Lemma construct_request_raises self h (kwargs : gmap string pyval) :
  (∀ request,
     (construct_params marshal_param self h request
        (delete "_request_options" kwargs)).2 ≠ None) →
  ∃ e', (construct_request marshal_param self h kwargs).2 = Raise e'.
Proof.
  intros Hp. unfold construct_request.
  destruct (pyval_get _ _ _) as [headers|]; [|by eexists].
  match goal with
  | |- context [construct_params marshal_param self h ?rq ?kw] =>
      specialize (Hp rq);
      destruct (construct_params marshal_param self h rq kw)
        as [[[self1 h1] request1] [e1|]]
  end; [by eexists|done].
Qed.

Lemma elem_of_supplied_calls m items p v :
  (p, v) ∈ supplied_calls m items → ∃ k, (k, v) ∈ items ∧ m !! k = Some p.
Proof.
  unfold supplied_calls. rewrite list_elem_of_omap.
  intros ([k v'] & Hin & Hsome). simpl in Hsome.
  destruct (m !! k) as [p'|] eqn:Hk; [|done].
  simpl in Hsome. injection Hsome as -> ->. by exists k.
Qed.

Lemma supplied_calls_names m items :
  map_Forall (λ k q, name q = k) m →
  (∀ k, k ∈ items.*1 → is_Some (m !! k)) →
  name <$> (supplied_calls m items).*1 = items.*1.
Proof.
  intros Hkeyed. induction items as [|[k v] items IH]; intros Hall; [done|].
  rewrite fmap_cons in Hall.
  destruct (Hall k) as [p Hp]; [apply elem_of_cons; by left|].
  rewrite (supplied_calls_cons_known m k v p items Hp), !fmap_cons. simpl.
  rewrite (Hkeyed k p Hp). f_equal. apply IH.
  intros k' Hk'. apply Hall. apply elem_of_cons. by right.
Qed.

Lemma itervalues_names (u : gmap string Param) :
  map_Forall (λ k q, name q = k) u →
  name <$> itervalues u = (iteritems u).*1.
Proof.
  intros Hkeyed. unfold itervalues. rewrite <- list_fmap_compose.
  apply list_fmap_ext. intros i [k q] Hi. simpl.
  apply Hkeyed. apply elem_of_iteritems. by eapply list_elem_of_lookup_2.
Qed.

Lemma default_calls_params (remaining : list Param) :
  (default_calls remaining).*1 =
  filter (λ p, negb (required p) && has_default p) remaining.
Proof.
  unfold default_calls. rewrite <- list_fmap_compose.
  induction (filter _ remaining) as [|p l IH]; [done|].
  rewrite fmap_cons. simpl. by rewrite IH.
Qed.

Lemma elem_of_default_calls (remaining : list Param) p v :
  (p, v) ∈ default_calls remaining ↔
  v = PNone ∧ required p = false ∧ has_default p = true ∧ p ∈ remaining.
Proof.
  unfold default_calls. rewrite list_elem_of_fmap. split.
  - intros (p' & [= -> ->] & Hin). apply list_elem_of_filter in Hin as [HP Hin].
    apply andb_prop_elim in HP as [Hr Hd].
    apply negb_prop_elim, Is_true_false in Hr. apply Is_true_true in Hd. done.
  - intros (-> & Hr & Hd & Hin). exists p. split; [done|].
    apply list_elem_of_filter. split; [|done]. by rewrite Hr, Hd.
Qed.

Lemma lookup_unsupplied m op_kwargs k p :
  unsupplied m op_kwargs !! k = Some p ↔ m !! k = Some p ∧ op_kwargs !! k = None.
Proof. unfold unsupplied. by rewrite map_lookup_filter_Some. Qed.

(** A run that completes is the run of [marshal_calls]. *)
Lemma construct_params_completes self h request op_kwargs :
  (construct_params marshal_param self h request op_kwargs).2 = None →
  let m := deref h (params self) in
  (∀ k, is_Some (op_kwargs !! k) → is_Some (m !! k)) ∧
  (∀ k p, m !! k = Some p → op_kwargs !! k = None → required p = false) ∧
  marshal_all marshal_param (marshal_calls m op_kwargs) request =
    ((construct_params marshal_param self h request op_kwargs).1.2, None).
Proof.
  intros Hok m.
  destruct (construct_params_items self h request op_kwargs) as (Hres & _ & _).
  fold m in Hres.
  set (r := construct_params marshal_param self h request op_kwargs) in *.
  set (q := consume_items marshal_param (operation_id self).2 m
              (iteritems op_kwargs) request) in *.
  assert (Hknown : ∀ k, is_Some (op_kwargs !! k) → is_Some (m !! k)).
  { intros k Hk. destruct (m !! k) as [p|] eqn:Hmk; [by eexists|].
    destruct (consume_items_unknown (operation_id self).2 m
                (iteritems op_kwargs) request (iteritems_NoDup op_kwargs))
      as (e & He & _).
    - exists k. split; [by apply elem_of_iteritems_keys|done].
    - fold q in He. rewrite He in Hres. inversion Hres. congruence. }
  destruct (consume_items_known (operation_id self).2 m
              (iteritems op_kwargs) request (iteritems_NoDup op_kwargs))
    as [Hq Hrem].
  { intros k Hk. by apply Hknown, elem_of_iteritems_keys. }
  fold q in Hq, Hrem.
  destruct (q.2) as [e|] eqn:Hq2; [inversion Hres; congruence|].
  specialize (Hrem eq_refl).
  assert (Hleft : q.1.1 = unsupplied m op_kwargs).
  { apply map_eq. intros k. apply option_eq. intros p.
    rewrite lookup_unsupplied, Hrem.
    case_decide as Hc; rewrite elem_of_iteritems_keys in Hc.
    - split; [done|]. intros [_ Hk]. rewrite Hk in Hc. by destruct Hc.
    - split; [|tauto]. intros Hmk. split; [done|].
      destruct (op_kwargs !! k); [|done]. exfalso. apply Hc. by eexists. }
  assert (Hopt : ∀ p, p ∈ itervalues q.1.1 → required p = false).
  { intros p Hp. destruct (required p) eqn:Hr; [|done].
    destruct (check_remaining_required (itervalues q.1.1) q.1.2 p Hp Hr)
      as (e & He & _).
    rewrite <- Hres in He. simpl in He. congruence. }
  split; [exact Hknown|]. split.
  - intros k p Hmk Hk. apply Hopt. apply elem_of_itervalues. exists k.
    rewrite Hleft. by apply lookup_unsupplied.
  - unfold marshal_calls. rewrite marshal_all_app, <- Hq. simpl.
    rewrite <- Hleft, <- (check_remaining_optional _ _ Hopt), <- Hres.
    by rewrite <- Hok.
Qed.

(** C5 (amended): in a run of [construct_params] that completes
    without raising, the request is the result of the calls
    [marshal_calls]: one call per marshaled parameter, and among the
    parameters not supplied (none of which is required) each one with a
    declared default is marshaled with the value [None] while the ones
    without a default are in no call. *)
Theorem construct_params_marshals_defaults self h request op_kwargs :
  map_Forall (λ k q, name q = k) (deref h (params self)) →
  (construct_params marshal_param self h request op_kwargs).2 = None →
  let m := deref h (params self) in
  let calls := marshal_calls m op_kwargs in
  marshal_all marshal_param calls request =
    ((construct_params marshal_param self h request op_kwargs).1.2, None) ∧
  NoDup calls.*1 ∧
  ∀ k p, m !! k = Some p → op_kwargs !! k = None →
    required p = false ∧
    (has_default p = true → (p, PNone) ∈ calls) ∧
    (has_default p = false → ∀ v, (p, v) ∉ calls).
Proof.
  intros Hkeyed Hok m calls.
  destruct (construct_params_completes self h request op_kwargs Hok)
    as (Hknown & Hopt & Hrun).
  fold m in Hknown, Hopt, Hrun. fold calls in Hrun.
  assert (Hkeyed' : map_Forall (λ k q, name q = k) (unsupplied m op_kwargs)).
  { intros k q Hk. apply lookup_unsupplied in Hk as [Hk _]. by apply Hkeyed. }
  split; [exact Hrun|]. split.
  - apply (NoDup_fmap_1 name). subst calls. unfold marshal_calls.
    rewrite !fmap_app. apply NoDup_app. split; [|split].
    + rewrite supplied_calls_names; [apply iteritems_NoDup|done|].
      intros k Hk. by apply Hknown, elem_of_iteritems_keys.
    + intros x Hx Hx'.
      rewrite supplied_calls_names in Hx; [|done|];
        [|intros k Hk; by apply Hknown, elem_of_iteritems_keys].
      apply elem_of_iteritems_keys in Hx as [v Hv].
      apply list_elem_of_fmap in Hx' as (p & -> & Hp).
      rewrite default_calls_params in Hp.
      apply list_elem_of_filter in Hp as [_ Hp].
      apply elem_of_itervalues in Hp as [k Hk].
      pose proof (Hkeyed' k p Hk) as Hname. simpl in Hname.
      apply lookup_unsupplied in Hk as [_ Hk]. congruence.
    + rewrite default_calls_params.
      eapply sublist_NoDup; [|apply fmap_sublist, sublist_filter].
      rewrite itervalues_names by done. apply iteritems_NoDup.
  - intros k p Hmk Hk. split; [by eapply Hopt|]. split.
    + intros Hd. subst calls. unfold marshal_calls. apply elem_of_app. right.
      apply elem_of_default_calls. repeat split; try done; [by eapply Hopt|].
      apply elem_of_itervalues. exists k. by apply lookup_unsupplied.
    + intros Hd v Hin. subst calls. unfold marshal_calls in Hin.
      apply elem_of_app in Hin as [Hin|Hin].
      * apply elem_of_supplied_calls in Hin as (k' & Hin & Hmk').
        apply elem_of_iteritems in Hin.
        pose proof (Hkeyed k p Hmk) as Hn. pose proof (Hkeyed k' p Hmk') as Hn'.
        simpl in Hn, Hn'. congruence.
      * apply elem_of_default_calls in Hin as (_ & _ & Hd' & _). congruence.
Qed.

(** C10: whether the call completes or raises, [construct_params] and
    [construct_request] leave the object's [params] reference and the
    dict it refers to as they were (the object changes at most by the
    memoized operation id), and the same call made again produces the
    same request or the same exception. *)
Theorem construct_leaves_params_unchanged self h request
    (kwargs : gmap string pyval) :
  is_Some (h !! params self) →
  let r := construct_params marshal_param self h request kwargs in
  let c := construct_request marshal_param self h kwargs in
  (params r.1.1.1 = params self ∧ r.1.1.2 !! params self = h !! params self) ∧
  (params c.1.1 = params self ∧ c.1.2 !! params self = h !! params self) ∧
  (let r' := construct_params marshal_param r.1.1.1 r.1.1.2 request kwargs in
   r'.1.2 = r.1.2 ∧ r'.2 = r.2) ∧
  (construct_request marshal_param c.1.1 c.1.2 kwargs).2 = c.2.
Proof.
  intros Hl r c.
  assert (Hp : ∀ self0 h0 request0 (kw : gmap string pyval),
    is_Some (h0 !! params self0) →
    let r0 := construct_params marshal_param self0 h0 request0 kw in
    memoized_from self0 r0.1.1.1 ∧ r0.1.1.2 !! params self0 = h0 !! params self0).
  { intros self0 h0 request0 kw Hl0 r0.
    destruct (construct_params_items self0 h0 request0 kw) as (_ & Hm & Hf).
    split; [exact Hm|]. by apply Hf. }
  assert (Hsame : ∀ self0 self1 h0 h1 request0 (kw : gmap string pyval),
    memoized_from self0 self1 →
    h1 !! params self0 = h0 !! params self0 →
    let r0 := construct_params marshal_param self0 h0 request0 kw in
    let r1 := construct_params marshal_param self1 h1 request0 kw in
    r1.1.2 = r0.1.2 ∧ r1.2 = r0.2).
  { intros self0 self1 h0 h1 request0 kw Hm Hh r0 r1.
    destruct (memoized_from_attrs _ _ Hm) as (_ & _ & _ & _ & Hpar & Hid).
    destruct (construct_params_items self0 h0 request0 kw) as (H0 & _ & _).
    destruct (construct_params_items self1 h1 request0 kw) as (H1 & _ & _).
    fold r0 in H0. fold r1 in H1.
    assert (Hd : deref h1 (params self1) = deref h0 (params self0)).
    { unfold deref. by rewrite Hpar, Hh. }
    rewrite Hd, Hid, <- H0 in H1. by inversion H1. }
  assert (Hc : memoized_from self c.1.1 ∧ c.1.2 !! params self = h !! params self).
  { subst c. unfold construct_request.
    destruct (pyval_get _ _ _) as [headers|]; [|by split; [left|]].
    match goal with
    | |- context [construct_params marshal_param self h ?rq ?kw] =>
        destruct (Hp self h rq kw Hl) as [Hm Hf];
        destruct (construct_params marshal_param self h rq kw)
          as [[[self1 h1] request1] [e1|]]
    end; done. }
  destruct (Hp self h request kwargs Hl) as [Hm Hf]. fold r in Hm, Hf.
  split; [split; [by apply memoized_from_attrs in Hm as (_ & _ & _ & _ & ? & _)|done]|].
  destruct Hc as [Hcm Hcf].
  split; [split; [by apply memoized_from_attrs in Hcm as (_ & _ & _ & _ & ? & _)|done]|].
  split; [by apply Hsame|].
  destruct (memoized_from_attrs _ _ Hcm) as (Hs & Hpn & Hhm & _ & _ & _).
  subst c. unfold construct_request at 1 4. rewrite Hs, Hpn, Hhm.
  destruct (pyval_get _ _ _) as [headers|]; [|done].
  match goal with
  | |- context [construct_params marshal_param self h ?rq ?kw] =>
      destruct (Hsame self (construct_request marshal_param self h kwargs).1.1
                  h (construct_request marshal_param self h kwargs).1.2 rq kw Hcm Hcf)
        as [Hr1 Hr2];
      destruct (construct_params marshal_param
                  (construct_request marshal_param self h kwargs).1.1
                  (construct_request marshal_param self h kwargs).1.2 rq kw)
        as [[[self2 h2] request2] res2];
      destruct (construct_params marshal_param self h rq kw)
        as [[[self1 h1] request1] res1]
  end.
  simpl in Hr1, Hr2. subst. by destruct res1.
Qed.

End ConstructParams.

Example show_pet_unknown_kwarg :
  (construct_params (H := Sample.canonical_order) Sample.marshal Sample.show_pet
     Sample.show_pet_store Sample.skeleton Sample.color_only).2 =
  Some (Exn TypeError "showPet does not have parameter color").
Proof. vm_compute. reflexivity. Qed.

(** C4, as stated, fails: [petId] is required and not supplied, but the
    call also passes the undeclared [color], and the first loop raises
    for [color] before the required parameters are looked at.  The
    TypeError does not name [petId]. *)
Lemma construct_params_unknown_kwarg_first :
  deref Sample.show_pet_store (params Sample.show_pet) !! "petId" =
    Some (Param_new Sample.petstore Sample.petId_in_path) ∧
  required (Param_new Sample.petstore Sample.petId_in_path) = true ∧
  Sample.color_only !! "petId" = None ∧
  (construct_params (H := Sample.canonical_order) Sample.marshal Sample.show_pet
     Sample.show_pet_store Sample.skeleton Sample.color_only).2 =
    Some (Exn TypeError "showPet does not have parameter color") ∧
  (construct_params (H := Sample.canonical_order) Sample.marshal Sample.show_pet
     Sample.show_pet_store Sample.skeleton Sample.color_only).2 ≠
    Some (Exn TypeError "petId is a required parameter") ∧
  PyStr.contains "petId" "showPet does not have parameter color" = false.
Proof.
  split; [vm_compute; reflexivity|]. split; [reflexivity|].
  split; [vm_compute; reflexivity|].
  assert (Hr : (construct_params (H := Sample.canonical_order) Sample.marshal
                  Sample.show_pet Sample.show_pet_store Sample.skeleton
                  Sample.color_only).2 =
               Some (Exn TypeError "showPet does not have parameter color")).
  { vm_compute. reflexivity. }
  split; [exact Hr|]. split; [rewrite Hr; discriminate|reflexivity].
Qed.

Example show_pet_missing_required :
  (construct_params (H := Sample.canonical_order) Sample.marshal Sample.show_pet
     Sample.show_pet_store Sample.skeleton Sample.limit_only).2 =
  Some (Exn TypeError "petId is a required parameter").
Proof. vm_compute. reflexivity. Qed.

(** C5, as stated, fails: [limit] is optional, has the default [20] and
    is not supplied, but the call passes the undeclared [color] and
    raises in the first loop.  The request is left as it was, with no
    [limit] among its ['params'], although marshaling [limit] with
    [None] would have added it. *)
Lemma construct_params_raises_before_defaults :
  deref Sample.show_pet_store (params Sample.show_pet) !! "limit" =
    Some (Param_new Sample.petstore Sample.limit_with_default) ∧
  required (Param_new Sample.petstore Sample.limit_with_default) = false ∧
  has_default (Param_new Sample.petstore Sample.limit_with_default) = true ∧
  Sample.color_only !! "limit" = None ∧
  (construct_params (H := Sample.canonical_order) Sample.marshal Sample.show_pet
     Sample.show_pet_store Sample.skeleton Sample.color_only).1.2 = Sample.skeleton ∧
  Sample.skeleton !! "params" = Some (PDict []) ∧
  (Sample.marshal (Param_new Sample.petstore Sample.limit_with_default) PNone
     Sample.skeleton).1 !! "params" = Some (PDict [("limit", PInt 20)]).
Proof.
  repeat split; vm_compute; reflexivity.
Qed.

Lemma construct_params_marshals_defaults_witness :
  marshal_all Sample.marshal
    (marshal_calls (H := Sample.canonical_order)
       (deref Sample.show_pet_store (params Sample.show_pet)) Sample.petId_only)
    Sample.skeleton =
  ((construct_params (H := Sample.canonical_order) Sample.marshal Sample.show_pet
      Sample.show_pet_store Sample.skeleton Sample.petId_only).1.2, None) ∧
  (Param_new Sample.petstore Sample.limit_with_default, PNone) ∈
    marshal_calls (H := Sample.canonical_order)
      (deref Sample.show_pet_store (params Sample.show_pet)) Sample.petId_only ∧
  ∀ v, (Param_new Sample.petstore Sample.verbose_optional, v) ∉
    marshal_calls (H := Sample.canonical_order)
      (deref Sample.show_pet_store (params Sample.show_pet)) Sample.petId_only.
Proof.
  assert (Hkeyed : map_Forall (λ k q, name q = k)
                     (deref Sample.show_pet_store (params Sample.show_pet))).
  { apply map_Forall_to_list. vm_compute. repeat constructor. }
  assert (Hok : (construct_params (H := Sample.canonical_order) Sample.marshal
                   Sample.show_pet Sample.show_pet_store Sample.skeleton
                   Sample.petId_only).2 = None).
  { vm_compute. reflexivity. }
  destruct (construct_params_marshals_defaults (H := Sample.canonical_order)
              Sample.marshal Sample.show_pet Sample.show_pet_store Sample.skeleton
              Sample.petId_only Hkeyed Hok) as (Hrun & _ & Hrest).
  split; [exact Hrun|]. split.
  - apply (Hrest "limit"); [vm_compute; reflexivity..].
  - apply (Hrest "verbose"); [vm_compute; reflexivity..].
Defined.

Example show_pet_request :
  map_to_list
    (construct_params (H := Sample.canonical_order) Sample.marshal Sample.show_pet
       Sample.show_pet_store Sample.skeleton Sample.petId_only).1.2 =
  [("method", PStr "get"); ("url", PStr "http://petstore.example/v2/pet/7");
   ("headers", PDict []); ("params", PDict [("limit", PInt 20)])].
Proof. vm_compute. reflexivity. Qed.

Lemma construct_leaves_params_unchanged_witness :
  params (construct_request (H := Sample.canonical_order) Sample.marshal Sample.show_pet
            Sample.show_pet_store Sample.color_only).1.1 = params Sample.show_pet ∧
  (construct_request (H := Sample.canonical_order) Sample.marshal Sample.show_pet
     Sample.show_pet_store Sample.color_only).1.2 !! params Sample.show_pet =
    Sample.show_pet_store !! params Sample.show_pet.
Proof.
  assert (Hl : is_Some (Sample.show_pet_store !! params Sample.show_pet)).
  { vm_compute. eexists. reflexivity. }
  exact (proj1 (proj2 (construct_leaves_params_unchanged (H := Sample.canonical_order)
                         Sample.marshal Sample.show_pet Sample.show_pet_store
                         Sample.skeleton Sample.color_only Hl))).
Defined.

(** ** Resolving and unmarshaling the response *)

(** C2: with a declared ['responses'] mapping, [get_response_spec]
    returns the entry under [str(status_code)] when there is one,
    otherwise the entry under ['default'] when there is one, and
    otherwise raises a SwaggerError whose message contains the repr of
    the operation and the status code. *)
Theorem get_response_spec_lookup (status : Z) (op : Operation)
    (response_specs : gmap string response_spec) :
  responses (op_spec op) = Some response_specs →
  (∀ r, response_specs !! PyStr.str_int status = Some r →
        get_response_spec status op = (op, Return r)) ∧
  (∀ d, response_specs !! PyStr.str_int status = None →
        response_specs !! "default" = Some d →
        get_response_spec status op = (op, Return d)) ∧
  (response_specs !! PyStr.str_int status = None →
   response_specs !! "default" = None →
   ∃ msg before between after,
     (get_response_spec status op).2 = Raise (Exn SwaggerError msg) ∧
     msg = before +:+ (Operation_repr op).2 +:+ between +:+
           PyStr.str_int status +:+ after ∧
     (Operation_repr op).2 = "Operation(" +:+ (operation_id op).2 +:+ ")").
Proof.
  intros Hr. unfold get_response_spec. rewrite Hr. split; [|split].
  - intros r ->. done.
  - intros d -> ->. done.
  - intros -> ->. unfold Operation_repr.
    destruct (operation_id op) as [op1 i]. simpl.
    eexists _, "Response specification matching http status_code ",
      " not found for ",
      ". Either add a response specifiction for the status_code or use a `default` response.".
    split; [reflexivity|]. split; reflexivity.
Qed.

Lemma get_response_spec_lookup_witness :
  get_response_spec 200 Sample.get_pet =
    (Sample.get_pet,
     Return {| schema := Some Sample.Pet_schema |}) ∧
  get_response_spec 404 Sample.get_pet =
    (Sample.get_pet,
     Return {| schema := None |}) ∧
  ∃ msg before between after,
    (get_response_spec 500 Sample.get_pet_bare).2 = Raise (Exn SwaggerError msg) ∧
    msg = before +:+ (Operation_repr Sample.get_pet_bare).2 +:+ between +:+
          PyStr.str_int 500 +:+ after ∧
    (Operation_repr Sample.get_pet_bare).2 =
      "Operation(" +:+ (operation_id Sample.get_pet_bare).2 +:+ ")".
Proof.
  destruct (get_response_spec_lookup 200
              Sample.get_pet
              Sample.pet_responses eq_refl) as (H200 & _ & _).
  destruct (get_response_spec_lookup 404
              Sample.get_pet
              Sample.pet_responses eq_refl) as (_ & H404 & _).
  destruct (get_response_spec_lookup 500 Sample.get_pet_bare Sample.only_200 eq_refl)
    as (_ & _ & H500).
  split; [apply H200; vm_compute; reflexivity|].
  split; [apply H404; vm_compute; reflexivity|].
  apply H500; vm_compute; reflexivity.
Defined.

Example get_response_spec_500_message :
  (get_response_spec 500 Sample.get_pet_bare).2 =
  Raise (Exn SwaggerError
    "Response specification matching http status_code Operation(get_pet_petId) not found for 500. Either add a response specifiction for the status_code or use a `default` response.").
Proof. vm_compute. reflexivity. Qed.

Section HandleResponse.

Context {R : Type} `{ResponseLike R}.
Variable unmarshal_schema_object : Spec → pyval → pyval → result pyval.

(** C7: [unmarshal_response] returns a pair whose first component is
    the status code of the response.  Without a ['schema'] key the
    second component is [None] and the response comes back as it was
    handed in, whatever [json()] would do to it: the body is not
    decoded.  With a ['schema'] key the body is decoded once and the
    second component is what [unmarshal_schema_object] makes of the
    decoded value for that schema; an exception of the decoder or of
    the unmarshaler is passed on. *)
Theorem unmarshal_response_pair (sp : Spec) (rs : response_spec) (response : R) :
  (schema rs = None →
   unmarshal_response unmarshal_schema_object sp rs response =
     (response, Return (status_code response, PNone))) ∧
  (∀ content_spec, schema rs = Some content_spec →
     (unmarshal_response unmarshal_schema_object sp rs response).1 =
       (json response).1 ∧
     (unmarshal_response unmarshal_schema_object sp rs response).2 =
       match (json response).2 with
       | Raise e => Raise e
       | Return content_value =>
           match unmarshal_schema_object sp content_spec content_value with
           | Return value => Return (status_code response, value)
           | Raise e => Raise e
           end
       end) ∧
  (∀ x, (unmarshal_response unmarshal_schema_object sp rs response).2 = Return x →
        x.1 = status_code response).
Proof.
  unfold unmarshal_response.
  pose proof (status_code_json response) as Hs.
  destruct (schema rs) as [content_spec|]; (split; [|split]); try done.
  - intros ? [= <-]. destruct (json response) as [response1 [v|e]]; simpl in *; [|done].
    rewrite Hs. by destruct (unmarshal_schema_object sp content_spec v).
  - intros x. destruct (json response) as [response1 [v|e]]; simpl in *; [|done].
    destruct (unmarshal_schema_object sp content_spec v); [|done].
    intros [= <-]. exact Hs.
  - by intros x [= <-].
Qed.

(** C9 (amended): for a response that is no [requests] Response,
    [handle_response] raises the built-in NotImplementedError with the
    message [TODO: Handle response of type <type>].  Nothing else
    happens: the operation comes back as it was, no response was
    wrapped or read, and the result depends neither on the declared
    responses nor on the unmarshaler. *)
Theorem handle_response_foreign (type_repr : string) (op : Operation) :
  handle_response unmarshal_schema_object (ForeignResponse type_repr) op =
    (op, None,
     Raise (Exn NotImplementedError ("TODO: Handle response of type " +:+ type_repr))).
Proof. reflexivity. Qed.

(** A [requests] Response goes through resolution and unmarshaling. *)
Lemma handle_response_requests (r : R) (op : Operation) (rs : response_spec) :
  get_response_spec (status_code r) op = (op, Return rs) →
  handle_response unmarshal_schema_object (RequestsResponse r) op =
    (op, Some (unmarshal_response unmarshal_schema_object (swagger_spec op) rs r).1,
     (unmarshal_response unmarshal_schema_object (swagger_spec op) rs r).2).
Proof.
  intros Hrs. unfold handle_response. rewrite Hrs.
  by destruct (unmarshal_response unmarshal_schema_object (swagger_spec op) rs r).
Qed.

End HandleResponse.

Lemma unmarshal_response_pair_witness :
  unmarshal_response Sample.unmarshal Sample.petstore {| schema := None |}
    Sample.not_found_response = (Sample.not_found_response, Return (404%Z, PNone)) ∧
  Sample.canned_reads
    (unmarshal_response Sample.unmarshal Sample.petstore
       {| schema := Some Sample.Pet_schema |} Sample.ok_response).1 = 1 ∧
  (unmarshal_response Sample.unmarshal Sample.petstore
     {| schema := Some Sample.Pet_schema |} Sample.ok_response).2 =
    Return (200%Z, Sample.pet_7).
Proof.
  destruct (unmarshal_response_pair Sample.unmarshal Sample.petstore
              {| schema := None |} Sample.not_found_response) as (Hnone & _ & _).
  destruct (unmarshal_response_pair Sample.unmarshal Sample.petstore
              {| schema := Some Sample.Pet_schema |} Sample.ok_response)
    as (_ & Hsome & _).
  destruct (Hsome Sample.Pet_schema eq_refl) as [Hresp Hval].
  split; [exact (Hnone eq_refl)|]. split; [by rewrite Hresp|exact Hval].
Defined.

(** C9, as stated, fails: a response of another type makes
    [handle_response] raise, but the exception is a NotImplementedError
    and no UnsupportedResponseType. *)
Lemma handle_response_foreign_not_UnsupportedResponseType :
  (handle_response (R := Sample.canned_response) Sample.unmarshal
     (ForeignResponse "<class 'fido.fido.Response'>") Sample.get_pet_bare).2 =
    Raise (Exn NotImplementedError
             "TODO: Handle response of type <class 'fido.fido.Response'>") ∧
  ¬ ∃ msg,
    (handle_response (R := Sample.canned_response) Sample.unmarshal
       (ForeignResponse "<class 'fido.fido.Response'>") Sample.get_pet_bare).2 =
      Raise (Exn UnsupportedResponseType msg).
Proof.
  split; [reflexivity|]. intros [msg Hmsg]. discriminate Hmsg.
Qed.

Example handle_response_ok :
  (handle_response Sample.unmarshal (RequestsResponse Sample.ok_response)
     Sample.get_pet).2 =
  Return (200%Z, Sample.pet_7).
Proof. vm_compute. reflexivity. Qed.

(** * Further properties *)

(** ** The derived operation id *)

Section DerivedId.

Import IdSpec PyChars.

#[local] Arguments Ascii.eqb : simpl never.

Lemma has_char_app (c : ascii) (s t : string) :
  has_char c (s +:+ t) = has_char c s || has_char c t.
Proof.
  induction s as [|a s IH]; [done|]. simpl. rewrite IH. by rewrite orb_assoc.
Qed.

Lemma has_char_replace_from (c : ascii) (old new : string) (skip : nat) (s : string) :
  has_char c new = false → has_char c s = false →
  has_char c (PyStr.replace_from old new skip s) = false.
Proof.
  intros Hnew. revert skip. induction s as [|a s IH]; intros skip Hs; [done|].
  simpl in Hs. apply orb_false_iff in Hs as [Ha Hs].
  simpl. destruct skip as [|k]; [|by apply IH].
  destruct (PyStr.startswith old (String a s)).
  - rewrite has_char_app, Hnew. by apply IH.
  - simpl. rewrite Ha. by apply IH.
Qed.

Lemma has_char_lstrip (c u : ascii) (s : string) :
  has_char c s = false → has_char c (PyStr.lstrip u s) = false.
Proof.
  induction s as [|a s IH]; [done|]. intros Hs. simpl.
  destruct (Ascii.eqb a u); [|done].
  simpl in Hs. apply orb_false_iff in Hs as [_ Hs]. by apply IH.
Qed.

Lemma has_char_rstrip (c u : ascii) (s : string) :
  has_char c s = false → has_char c (PyStr.rstrip u s) = false.
Proof.
  induction s as [|a s IH]; [done|]. intros Hs.
  simpl in Hs. apply orb_false_iff in Hs as [Ha Hs]. specialize (IH Hs).
  simpl. destruct (PyStr.rstrip u s) as [|b r].
  - destruct (Ascii.eqb a u); [done|]. simpl. by rewrite Ha.
  - simpl in *. by rewrite Ha.
Qed.

Lemma has_char_substitute (c : ascii) (s : string) :
  is_separator c = true → has_char c (substitute s) = false.
Proof.
  intros Hc. induction s as [|a s IH]; [done|]. simpl. rewrite IH, orb_false_r.
  destruct (is_separator a) eqn:Ha.
  - apply Ascii.eqb_neq. intros <-. by vm_compute in Hc.
  - apply Ascii.eqb_neq. intros ->. congruence.
Qed.

Lemma separator_not_underscore (c : ascii) :
  is_separator c = true → has_char c "_" = false.
Proof.
  intros Hc. simpl. rewrite orb_false_r.
  apply Ascii.eqb_neq. intros <-. by vm_compute in Hc.
Qed.

Lemma derived_operation_id_substitute (method path : string) :
  derived_operation_id method path =
  PyStr.strip "_" (PyStr.replace "__" "_" (substitute (method +:+ "_" +:+ path))).
Proof. unfold derived_operation_id. by rewrite replace_separators. Qed.

Lemma substitute_app (s t : string) :
  substitute (s +:+ t) = substitute s +:+ substitute t.
Proof. induction s as [|a s IH]; [done|]. simpl. by rewrite IH. Qed.

Lemma lstrip_first (c : ascii) (s : string) :
  first_char (PyStr.lstrip c s) ≠ Some c.
Proof.
  induction s as [|a s IH]; [done|]. simpl.
  destruct (Ascii.eqb_spec a c) as [->|Hne]; [done|].
  simpl. congruence.
Qed.

Lemma rstrip_first (c : ascii) (s : string) :
  first_char s ≠ Some c → first_char (PyStr.rstrip c s) ≠ Some c.
Proof.
  destruct s as [|a s]; [done|]. simpl. intros Ha.
  destruct (PyStr.rstrip c s); [|done].
  destruct (Ascii.eqb a c); [done|]. done.
Qed.

Lemma rstrip_last (c : ascii) (s : string) :
  last_char (PyStr.rstrip c s) ≠ Some c.
Proof.
  induction s as [|a s IH]; [done|]. simpl.
  destruct (PyStr.rstrip c s) as [|b r] eqn:Hr.
  - destruct (Ascii.eqb_spec a c) as [->|Hne]; [done|]. simpl. congruence.
  - exact IH.
Qed.

(** X8: an id derived from the method and the path neither starts nor
    ends with an underscore. *)
Theorem derived_id_trimmed (self : Operation) :
  _operation_id self = None →
  operationId (op_spec self) = None →
  first_char (operation_id self).2 ≠ Some "_"%char ∧
  last_char (operation_id self).2 ≠ Some "_"%char.
Proof.
  intros Hm Hi. unfold operation_id. rewrite Hm, Hi. simpl.
  unfold derived_operation_id, PyStr.strip. split.
  - apply rstrip_first, lstrip_first.
  - apply rstrip_last.
Qed.

(** X9: an id derived from the method and the path contains none of
    the characters ['/'], ['{'] and ['}'], wherever they stood in the
    method or the path. *)
Theorem derived_id_has_no_separator (self : Operation) (c : ascii) :
  _operation_id self = None →
  operationId (op_spec self) = None →
  is_separator c = true →
  has_char c (operation_id self).2 = false.
Proof.
  intros Hm Hi Hc. unfold operation_id. rewrite Hm, Hi. simpl.
  rewrite derived_operation_id_substitute. unfold PyStr.strip.
  apply has_char_rstrip, has_char_lstrip, has_char_replace_from.
  - by apply separator_not_underscore.
  - by apply has_char_substitute.
Qed.

(** X10: the derived id does not tell ['/'], ['{'], ['}'] and ['_']
    apart: two operations with the same method whose paths agree once
    every separator is replaced by an underscore get the same derived
    id, so derived ids are not unique per path. *)
Theorem derived_id_confuses_separators (self other : Operation) :
  _operation_id self = None → operationId (op_spec self) = None →
  _operation_id other = None → operationId (op_spec other) = None →
  http_method self = http_method other →
  substitute (path_name self) = substitute (path_name other) →
  (operation_id self).2 = (operation_id other).2.
Proof.
  intros Hm Hi Hm' Hi' Hmeth Hpath. unfold operation_id.
  rewrite Hm, Hi, Hm', Hi'. simpl.
  rewrite !derived_operation_id_substitute, !substitute_app, Hmeth, Hpath. done.
Qed.

Lemma operation_id_memo_set (self : Operation) :
  _operation_id (operation_id self).1 = Some (operation_id self).2.
Proof.
  unfold operation_id.
  destruct (_operation_id self) eqn:Hm; simpl; [done|].
  destruct (operationId (op_spec self)); done.
Qed.

(** X7: the id is computed once.  After the first access the object is
    a fixed point of [operation_id], and every later access returns the
    value of the first one. *)
Theorem operation_id_computed_once (self : Operation) :
  let first := operation_id self in
  operation_id first.1 = (first.1, first.2) ∧
  _operation_id first.1 = Some first.2.
Proof.
  simpl. split; [|apply operation_id_memo_set].
  rewrite operation_id_memoized. by destruct (operation_id self).
Qed.

End DerivedId.

Lemma derived_id_trimmed_witness :
  PyChars.first_char (operation_id Sample.get_repo).2 ≠ Some "_"%char ∧
  PyChars.last_char (operation_id Sample.get_repo).2 ≠ Some "_"%char.
Proof.
  apply (derived_id_trimmed Sample.get_repo); reflexivity.
Defined.

Lemma derived_id_has_no_separator_witness :
  PyChars.has_char "{" (operation_id Sample.get_repo).2 = false.
Proof.
  apply (derived_id_has_no_separator Sample.get_repo "{"); reflexivity.
Defined.

Lemma derived_id_confuses_separators_witness :
  (operation_id (Sample.operation 1%positive "get" "/pet/{petId}" Sample.bare_spec)).2 =
  (operation_id (Sample.operation 1%positive "get" "/pet_/petId/" Sample.bare_spec)).2.
Proof.
  apply (derived_id_confuses_separators
           (Sample.operation 1%positive "get" "/pet/{petId}" Sample.bare_spec)
           (Sample.operation 1%positive "get" "/pet_/petId/" Sample.bare_spec));
    reflexivity.
Defined.

(** ** The parameter set [build_params] leaves behind *)

Section BuiltParams.

Implicit Types (h : store) (d l : loc) (sp : Spec) (specs : list param_spec)
  (m : gmap string Param) (self : Operation).

Lemma lookup_inserted_notin sp specs m n :
  n ∉ ps_name <$> specs → inserted sp specs m !! n = m !! n.
Proof.
  revert m. induction specs as [|ps specs IH]; intros m Hn; [done|].
  rewrite fmap_cons in Hn. apply not_elem_of_cons in Hn as [Hne Hn].
  simpl. rewrite IH by done. by apply lookup_insert_ne.
Qed.

Lemma lookup_inserted_from sp specs m n p :
  inserted sp specs m !! n = Some p →
  m !! n = Some p ∨ ∃ ps, ps ∈ specs ∧ ps_name ps = n ∧ p = Param_new sp ps.
Proof.
  revert m. induction specs as [|ps specs IH]; intros m Hp; [by left|].
  simpl in Hp. apply IH in Hp as [Hp|(ps' & Hin & Hn & ->)].
  - rewrite lookup_insert in Hp. case_decide as Hk.
    + right. exists ps. split; [apply elem_of_cons; by left|]. split; [done|].
      by injection Hp as <-.
    + by left.
  - right. exists ps'. split; [apply elem_of_cons; by right|done].
Qed.

Lemma build_params_loop_lookup sp d specs h :
  is_Some (h !! d) →
  build_params_loop sp d specs h !! d = Some (inserted sp specs (deref h d)).
Proof.
  revert h. induction specs as [|ps specs IH]; intros h [m Hm].
  - simpl. unfold deref. by rewrite Hm.
  - simpl. rewrite IH.
    + unfold dict_setitem. by rewrite deref_insert_eq.
    + unfold dict_setitem. rewrite lookup_insert_eq. by eexists.
Qed.

(** X1: when the paths table lists the operation's path, the keys of
    the parameter set are exactly the names declared at operation
    level together with the names declared at path level; a missing
    ['parameters'] key counts as an empty list. *)
Theorem build_params_key_set self h (table : gmap string PathSpec)
    (path_specs : PathSpec) :
  paths (spec_dict (swagger_spec self)) = Some table →
  table !! path_name self = Some path_specs →
  dom (deref (build_params self h).1.2 (params (build_params self h).1.1)) =
    list_to_set (ps_name <$> default [] (parameters (op_spec self))) ∪
    list_to_set (ps_name <$> default [] (path_parameters path_specs)).
Proof. apply build_params_keys. Qed.

(** X2: every entry of the parameter set is the Param of one of the
    declarations of the operation or of its path, stored under that
    Param's own name. *)
Theorem build_params_entries_declared self h (table : gmap string PathSpec)
    (path_specs : PathSpec) (n : string) (p : Param) :
  paths (spec_dict (swagger_spec self)) = Some table →
  table !! path_name self = Some path_specs →
  deref (build_params self h).1.2 (params (build_params self h).1.1) !! n = Some p →
  name p = n ∧
  ∃ ps, (ps ∈ default [] (parameters (op_spec self)) ∨
         ps ∈ default [] (path_parameters path_specs)) ∧
        p = Param_new (swagger_spec self) ps.
Proof.
  intros Hp Ht Hn.
  split; [by eapply build_params_keyed_by_name|].
  destruct (build_params_listed self h table path_specs Hp Ht) as [_ Heq].
  rewrite Heq in Hn.
  apply lookup_inserted_from in Hn as [Hn|(ps & Hin & _ & ->)].
  - apply lookup_inserted_from in Hn as [Hn|(ps & Hin & _ & ->)].
    + by rewrite lookup_empty in Hn.
    + exists ps. split; [by left|done].
  - exists ps. split; [by right|done].
Qed.

(** X3: how a name is resolved.  A name the path declares is bound to
    the Param of a path-level declaration, also when the operation
    declares it too; a name only the operation declares is bound to
    the Param of an operation-level declaration. *)
Theorem build_params_resolves_names self h (table : gmap string PathSpec)
    (path_specs : PathSpec) (n : string) :
  paths (spec_dict (swagger_spec self)) = Some table →
  table !! path_name self = Some path_specs →
  let built := deref (build_params self h).1.2 (params (build_params self h).1.1) in
  (n ∈ ps_name <$> default [] (path_parameters path_specs) →
   ∃ ps, ps ∈ default [] (path_parameters path_specs) ∧ ps_name ps = n ∧
         built !! n = Some (Param_new (swagger_spec self) ps)) ∧
  (n ∉ ps_name <$> default [] (path_parameters path_specs) →
   n ∈ ps_name <$> default [] (parameters (op_spec self)) →
   ∃ ps, ps ∈ default [] (parameters (op_spec self)) ∧ ps_name ps = n ∧
         built !! n = Some (Param_new (swagger_spec self) ps)).
Proof.
  intros Hp Ht built. subst built.
  destruct (build_params_listed self h table path_specs Hp Ht) as [_ ->].
  split.
  - intros Hn. by apply lookup_inserted_in.
  - intros Hnp Hno. rewrite lookup_inserted_notin by done.
    by apply lookup_inserted_in.
Qed.

(** X4: [build_params] puts the parameters into a new dict object.  No
    dict that exists before the call is modified (in particular not the
    one [self.params] referred to), the new reference differs from
    every existing one, and no other attribute of the object changes;
    this holds also when the path is unknown and the call raises. *)
Theorem build_params_allocates self h l :
  is_Some (h !! l) →
  (build_params self h).1.2 !! l = h !! l ∧
  params (build_params self h).1.1 ≠ l ∧
  set_params (build_params self h).1.1 (params self) = self.
Proof.
  intros Hl. pose proof (fresh_not_allocated h l Hl) as Hne.
  unfold build_params, dict_new. simpl.
  assert (Hself : set_params (set_params self (fresh (dom h))) (params self) = self).
  { by destruct self. }
  destruct (paths (spec_dict (swagger_spec self))) as [table|]; simpl.
  - destruct (table !! path_name self) as [path_specs|]; simpl.
    + rewrite build_params_loop_frame by done. by rewrite lookup_insert_ne.
    + by rewrite lookup_insert_ne.
  - by rewrite lookup_insert_ne.
Qed.

(** X5: the parameter set does not depend on what [self.params] or the
    store held before: building again on the result of [build_params]
    gives a dict with the same entries. *)
Theorem build_params_rebuild self h (table : gmap string PathSpec)
    (path_specs : PathSpec) :
  paths (spec_dict (swagger_spec self)) = Some table →
  table !! path_name self = Some path_specs →
  let once := build_params self h in
  let twice := build_params once.1.1 once.1.2 in
  twice.2 = Return () ∧
  deref twice.1.2 (params twice.1.1) = deref once.1.2 (params once.1.1).
Proof.
  intros Hp Ht once twice.
  destruct (build_params_listed self h table path_specs Hp Ht) as [_ Hone].
  fold once in Hone.
  assert (Hattrs : swagger_spec once.1.1 = swagger_spec self ∧
                   path_name once.1.1 = path_name self ∧
                   op_spec once.1.1 = op_spec self).
  { subst once. unfold build_params, dict_new. simpl. rewrite Hp, Ht. done. }
  destruct Hattrs as (Hs & Hn & Ho).
  destruct (build_params_listed once.1.1 once.1.2 table path_specs) as [Hres Htwo].
  { by rewrite Hs. }
  { by rewrite Hn. }
  fold twice in Hres, Htwo. split; [done|].
  by rewrite Htwo, Hone, Hs, Ho.
Qed.

(** X6: what [from_spec] hands over when the paths table lists the
    path.  The operation carries the arguments it was created from, no
    operation id is computed yet, [params] refers to an allocated dict
    in which every Param is stored under its own name, and the dicts
    that existed before are unchanged. *)
Theorem from_spec_result h sp (path method : string) (ospec : OpSpec)
    (table : gmap string PathSpec) (path_specs : PathSpec) :
  paths (spec_dict sp) = Some table →
  table !! path = Some path_specs →
  let made := from_spec h sp path method ospec in
  made.2 = Return () ∧
  (swagger_spec made.1.1 = sp ∧ path_name made.1.1 = path ∧
   http_method made.1.1 = method ∧ op_spec made.1.1 = ospec ∧
   _operation_id made.1.1 = None) ∧
  made.1.2 !! params made.1.1 =
    Some (inserted sp (default [] (path_parameters path_specs))
            (inserted sp (default [] (parameters ospec)) ∅)) ∧
  map_Forall (λ k q, name q = k) (deref made.1.2 (params made.1.1)) ∧
  (∀ l, is_Some (h !! l) → made.1.2 !! l = h !! l).
Proof.
  intros Hp Ht made. subst made.
  unfold from_spec, Operation_init, dict_new, build_params. simpl.
  rewrite Hp, Ht. simpl.
  set (l1 := fresh (dom h)).
  set (h1 := <[l1 := ∅]> h).
  set (l2 := fresh (dom h1)).
  assert (Hlook : build_params_loop sp l2
                    (default [] (parameters ospec) ++
                     default [] (path_parameters path_specs))%list
                    (<[l2 := ∅]> h1) !! l2 =
                  Some (inserted sp (default [] (path_parameters path_specs))
                          (inserted sp (default [] (parameters ospec)) ∅))).
  { rewrite build_params_loop_lookup.
    - by rewrite deref_insert_eq, inserted_app.
    - rewrite lookup_insert_eq. by eexists. }
  split; [done|]. split; [done|]. split; [exact Hlook|]. split.
  - unfold deref. rewrite Hlook. simpl. intros k q Hk.
    eapply lookup_inserted_name; [|exact Hk]. intros k' q' Hk'.
    eapply lookup_inserted_name; [|exact Hk']. intros ? ?. by rewrite lookup_empty.
  - intros l Hl.
    assert (Hl1 : is_Some (h1 !! l)).
    { subst h1. rewrite lookup_insert_ne; [done|]. by apply fresh_not_allocated. }
    rewrite build_params_loop_frame by (by apply fresh_not_allocated).
    rewrite lookup_insert_ne by (by apply fresh_not_allocated).
    subst h1. rewrite lookup_insert_ne; [done|]. by apply fresh_not_allocated.
Qed.

End BuiltParams.

Lemma build_params_key_set_witness :
  dom (deref (build_params Sample.get_pet ∅).1.2
             (params (build_params Sample.get_pet ∅).1.1)) =
    list_to_set ["petId"; "limit"; "verbose"] ∪ list_to_set ["api_key"].
Proof.
  apply (build_params_key_set Sample.get_pet ∅
           (<["/pet/{petId}" := {| path_parameters := Some [Sample.api_key_header] |}]> ∅)
           {| path_parameters := Some [Sample.api_key_header] |});
    [reflexivity | vm_compute; reflexivity].
Defined.

Lemma build_params_entries_declared_witness :
  name (Param_new Sample.colliding_store Sample.petId_in_query) = "petId" ∧
  ∃ ps, (ps ∈ [Sample.petId_in_path] ∨ ps ∈ [Sample.petId_in_query]) ∧
        Param_new Sample.colliding_store Sample.petId_in_query =
          Param_new Sample.colliding_store ps.
Proof.
  apply (build_params_entries_declared Sample.colliding_operation ∅
           (<["/pet/{petId}" := {| path_parameters := Some [Sample.petId_in_query] |}]> ∅)
           {| path_parameters := Some [Sample.petId_in_query] |} "petId");
    [reflexivity | vm_compute; reflexivity | vm_compute; reflexivity].
Defined.

Lemma build_params_resolves_names_witness :
  ∃ ps, ps ∈ [Sample.petId_in_path; Sample.limit_with_default; Sample.verbose_optional] ∧
        ps_name ps = "limit" ∧
        deref (build_params Sample.get_pet ∅).1.2
              (params (build_params Sample.get_pet ∅).1.1) !! "limit" =
          Some (Param_new Sample.petstore ps).
Proof.
  refine (proj2 (build_params_resolves_names Sample.get_pet ∅
           (<["/pet/{petId}" := {| path_parameters := Some [Sample.api_key_header] |}]> ∅)
           {| path_parameters := Some [Sample.api_key_header] |} "limit" _ _) _ _).
  - reflexivity.
  - vm_compute. reflexivity.
  - simpl. intros Hin. apply list_elem_of_singleton in Hin. discriminate Hin.
  - simpl. apply elem_of_cons. right. apply elem_of_cons. by left.
Defined.

Lemma build_params_allocates_witness :
  (build_params Sample.show_pet Sample.show_pet_store).1.2 !! params Sample.show_pet =
    Sample.show_pet_store !! params Sample.show_pet ∧
  params (build_params Sample.show_pet Sample.show_pet_store).1.1 ≠
    params Sample.show_pet.
Proof.
  assert (Hl : is_Some (Sample.show_pet_store !! params Sample.show_pet)).
  { vm_compute. eexists. reflexivity. }
  destruct (build_params_allocates Sample.show_pet Sample.show_pet_store
              (params Sample.show_pet) Hl) as (Hsame & Hnew & _).
  split; [exact Hsame | exact Hnew].
Defined.

Lemma build_params_rebuild_witness :
  deref (build_params (build_params Sample.get_pet ∅).1.1
           (build_params Sample.get_pet ∅).1.2).1.2
        (params (build_params (build_params Sample.get_pet ∅).1.1
                   (build_params Sample.get_pet ∅).1.2).1.1) =
  deref (build_params Sample.get_pet ∅).1.2 (params (build_params Sample.get_pet ∅).1.1).
Proof.
  refine (proj2 (build_params_rebuild Sample.get_pet ∅
           (<["/pet/{petId}" := {| path_parameters := Some [Sample.api_key_header] |}]> ∅)
           {| path_parameters := Some [Sample.api_key_header] |} _ _)).
  - reflexivity.
  - vm_compute. reflexivity.
Defined.

Lemma from_spec_result_witness :
  (from_spec ∅ Sample.petstore "/pet/{petId}" "get" Sample.show_pet_spec).2 = Return () ∧
  map_Forall (λ k q, name q = k)
    (deref Sample.show_pet_store (params Sample.show_pet)).
Proof.
  destruct (from_spec_result ∅ Sample.petstore "/pet/{petId}" "get" Sample.show_pet_spec
              (<["/pet/{petId}" := {| path_parameters := Some [Sample.api_key_header] |}]> ∅)
              {| path_parameters := Some [Sample.api_key_header] |})
    as (Hres & _ & _ & Hkeyed & _).
  - reflexivity.
  - vm_compute. reflexivity.
  - split; [exact Hres | exact Hkeyed].
Defined.

(** ** When a call goes through *)

Section CallsThatComplete.

Context `{DictOrder}.
Variable marshal_param : Param → pyval → Request → Request * option exn.

Implicit Types (h : store) (m : gmap string Param) (request : Request)
  (self : Operation) (kwargs op_kwargs : gmap string pyval).

Lemma iteritems_empty {A : Type} : iteritems (∅ : gmap string A) = [].
Proof.
  apply Permutation_nil_r. by rewrite (iteritems_perm A ∅), map_to_list_empty.
Qed.

Lemma check_remaining_skip (remaining : list Param) request :
  (∀ p, p ∈ remaining → required p = false ∧ has_default p = false) →
  check_remaining marshal_param remaining request = (request, None).
Proof.
  induction remaining as [|p remaining IH]; intros Hq; [done|].
  destruct (Hq p) as [Hr Hd]; [apply elem_of_cons; by left|].
  simpl. rewrite Hr, Hd. simpl. apply IH.
  intros p' Hp'. apply Hq. apply elem_of_cons. by right.
Qed.

Lemma marshal_all_never_raises (calls : list (Param * pyval)) request :
  (∀ p v r, (marshal_param p v r).2 = None) →
  (marshal_all marshal_param calls request).2 = None.
Proof.
  intros Hok. revert request.
  induction calls as [|[p v] calls IH]; intros request; [done|].
  simpl. pose proof (Hok p v request) as Hp.
  destruct (marshal_param p v request) as [request1 [e|]]; [done|]. apply IH.
Qed.

Lemma construct_params_completes_iff self h request op_kwargs :
  (∀ p v r, (marshal_param p v r).2 = None) →
  (construct_params marshal_param self h request op_kwargs).2 = None ↔
  (∀ k, is_Some (op_kwargs !! k) → is_Some (deref h (params self) !! k)) ∧
  (∀ k p, deref h (params self) !! k = Some p → required p = true →
          is_Some (op_kwargs !! k)).
Proof.
  intros Hok. split.
  - intros Hdone.
    destruct (construct_params_completes marshal_param self h request op_kwargs Hdone)
      as (Hknown & Hopt & _).
    split; [exact Hknown|]. intros k p Hk Hr.
    destruct (op_kwargs !! k) eqn:Hkw; [by eexists|].
    rewrite (Hopt k p Hk Hkw) in Hr. discriminate.
  - intros [Hknown Hreq].
    destruct (construct_params_items marshal_param self h request op_kwargs)
      as (Hres & _ & _).
    destruct (consume_items_known marshal_param (operation_id self).2
                (deref h (params self)) (iteritems op_kwargs) request
                (iteritems_NoDup op_kwargs)) as [Hq Hrem].
    { intros k Hk. by apply Hknown, elem_of_iteritems_keys. }
    set (q := consume_items marshal_param (operation_id self).2
                (deref h (params self)) (iteritems op_kwargs) request) in *.
    assert (Hq2 : q.2 = None).
    { pose proof (marshal_all_never_raises
                    (supplied_calls (deref h (params self)) (iteritems op_kwargs))
                    request Hok) as Hall.
      rewrite <- Hq in Hall. exact Hall. }
    rewrite Hq2 in Hres. specialize (Hrem Hq2).
    rewrite check_remaining_optional in Hres.
    + pose proof (marshal_all_never_raises
                    (default_calls (itervalues q.1.1)) q.1.2 Hok) as Hall.
      rewrite <- Hres in Hall. exact Hall.
    + intros p Hp. apply elem_of_itervalues in Hp as [k Hk].
      rewrite Hrem in Hk. case_decide as Hc; [done|].
      destruct (required p) eqn:Hr; [|done].
      exfalso. apply Hc. apply elem_of_iteritems_keys. by eapply Hreq.
Qed.

Lemma construct_request_memoized self h kwargs :
  memoized_from self (construct_request marshal_param self h kwargs).1.1.
Proof.
  unfold construct_request.
  destruct (pyval_get _ _ _) as [headers|]; [|by left].
  match goal with
  | |- context [construct_params marshal_param self h ?rq ?kw] =>
      destruct (construct_params_items marshal_param self h rq kw) as (_ & Hm & _);
      destruct (construct_params marshal_param self h rq kw)
        as [[[self1 h1] request1] [e1|]]
  end; exact Hm.
Qed.

Lemma construct_params_quiet self h request :
  (∀ k p, deref h (params self) !! k = Some p →
          required p = false ∧ has_default p = false) →
  (construct_params marshal_param self h request ∅).1.2 = request ∧
  (construct_params marshal_param self h request ∅).2 = None.
Proof.
  intros Hquiet.
  destruct (construct_params_items marshal_param self h request ∅) as (Hres & _ & _).
  rewrite iteritems_empty in Hres. simpl in Hres.
  rewrite check_remaining_skip in Hres.
  - injection Hres as Hreq Hexn. by split.
  - intros p Hp. apply elem_of_itervalues in Hp as [k Hk]. by eapply Hquiet.
Qed.

(** X11: a call without arguments to an operation none of whose
    parameters is required or has a default marshals nothing: the
    request comes back as it was handed in and nothing is raised,
    whatever [marshal_param] does. *)
Theorem construct_params_nothing_to_marshal self h request :
  (∀ k p, deref h (params self) !! k = Some p →
          required p = false ∧ has_default p = false) →
  (construct_params marshal_param self h request ∅).1.2 = request ∧
  (construct_params marshal_param self h request ∅).2 = None.
Proof. apply construct_params_quiet. Qed.

(** X12: with a marshaler that does not raise, [construct_params]
    completes exactly when every supplied name is a declared parameter
    and every required parameter is supplied; the iteration order of
    the dicts and the values supplied (also [None]) play no part. *)
Theorem construct_params_completes_exactly_when self h request op_kwargs :
  (∀ p v r, (marshal_param p v r).2 = None) →
  (construct_params marshal_param self h request op_kwargs).2 = None ↔
  (∀ k, is_Some (op_kwargs !! k) → is_Some (deref h (params self) !! k)) ∧
  (∀ k p, deref h (params self) !! k = Some p → required p = true →
          is_Some (op_kwargs !! k)).
Proof. apply construct_params_completes_iff. Qed.

(** X13: with a marshaler that does not raise, [construct_request]
    returns a request exactly when the value under [_request_options]
    (an empty dict when absent) is a dict, every other supplied name is
    a declared parameter and every required parameter is supplied under
    another name than [_request_options]: that entry is taken out
    before the arguments are matched against the parameters. *)
Theorem construct_request_returns_exactly_when self h kwargs :
  (∀ p v r, (marshal_param p v r).2 = None) →
  (∃ request, (construct_request marshal_param self h kwargs).2 = Return request) ↔
  (∃ d, default (PDict []) (kwargs !! "_request_options") = PDict d) ∧
  (∀ k, k ≠ "_request_options" → is_Some (kwargs !! k) →
        is_Some (deref h (params self) !! k)) ∧
  (∀ k p, deref h (params self) !! k = Some p → required p = true →
          k ≠ "_request_options" ∧ is_Some (kwargs !! k)).
Proof.
  intros Hok. unfold construct_request.
  destruct (default (PDict []) (kwargs !! "_request_options")) as [| | | | |d] eqn:Hopt;
    simpl;
    try (split; [intros [? ?]; discriminate | intros [[? ?] _]; discriminate]).
  match goal with
  | |- context [construct_params marshal_param self h ?rq ?kw] =>
      pose proof (construct_params_completes_iff self h rq kw Hok) as Hiff;
      destruct (construct_params marshal_param self h rq kw)
        as [[[self1 h1] request1] res]
  end.
  simpl in Hiff.
  assert (Hdel : ∀ k, is_Some (delete "_request_options" kwargs !! k) ↔
                      k ≠ "_request_options" ∧ is_Some (kwargs !! k)).
  { intros k. destruct (decide (k = "_request_options")) as [->|Hne].
    - rewrite lookup_delete_eq. split; [by intros [? ?]|by intros [? _]].
    - rewrite lookup_delete_ne by done. tauto. }
  split.
  - intros [request0 Hret]. destruct res as [e|]; [discriminate|].
    destruct (proj1 Hiff eq_refl) as [Hknown Hreq].
    split; [by eexists|]. split.
    + intros k Hne Hk. apply Hknown. by apply Hdel.
    + intros k p Hk Hr. by apply Hdel, (Hreq k p).
  - intros (_ & Hknown & Hreq).
    assert (Hres : res = None).
    { apply Hiff. split.
      - intros k Hk. apply Hdel in Hk as [Hne Hk]. by apply Hknown.
      - intros k p Hk Hr. by apply Hdel, (Hreq k p). }
    subst res. by eexists.
Qed.

(** X14: [__call__] leaves the operation id memoized, whether the
    request could be constructed or not: the debug line evaluates
    [operation_id] before anything else. *)
Theorem call_memoizes_operation_id self h kwargs :
  _operation_id (call marshal_param self h kwargs).1.1 = Some (operation_id self).2.
Proof.
  unfold call.
  pose proof (operation_id_memoized self) as Hfix.
  pose proof (operation_id_memo_set self) as Hmemo.
  destruct (operation_id self) as [self0 i] eqn:Hid. simpl in *.
  pose proof (construct_request_memoized self0 h kwargs) as Hm.
  assert (Hself : (construct_request marshal_param self0 h kwargs).1.1 = self0).
  { destruct Hm as [->| ->]; [done|]. by rewrite Hfix. }
  destruct (construct_request marshal_param self0 h kwargs) as [[self1 h1] [request|e]];
    simpl in *; by subst self1.
Qed.

(** X15: for an operation none of whose parameters is required or has
    a default, called with nothing but (possibly) request options, the
    request is the skeleton: the method, the url [api_url + path_name],
    empty ['params'] and the headers of the options, an empty dict
    when there are none; [marshal_param] is not consulted. *)
Theorem construct_request_skeleton self h kwargs (d : list (string * pyval)) :
  delete "_request_options" kwargs = ∅ →
  default (PDict []) (kwargs !! "_request_options") = PDict d →
  (∀ k p, deref h (params self) !! k = Some p →
          required p = false ∧ has_default p = false) →
  (construct_request marshal_param self h kwargs).2 =
    Return (<["headers" := default (PDict []) (assoc_get d "headers")]>
             (<["params" := PDict []]>
               (<["url" := PStr (api_url (swagger_spec self) +:+ path_name self)]>
                 (<["method" := PStr (http_method self)]> ∅)))).
Proof.
  intros Hdel Hopt Hquiet. unfold construct_request. rewrite Hopt, Hdel. simpl.
  match goal with
  | |- context [construct_params marshal_param self h ?rq ∅] =>
      destruct (construct_params_quiet self h rq Hquiet) as [Hreq Hres];
      destruct (construct_params marshal_param self h rq ∅)
        as [[[self1 h1] request1] res]
  end.
  simpl in Hreq, Hres. by subst.
Qed.

Lemma consume_items_prefix (i : string) m
    (pre post : list (string * pyval)) (n : string) (v : pyval) request :
  NoDup ((pre ++ (n, v) :: post)%list).*1 →
  (∀ k, k ∈ pre.*1 → is_Some (m !! k)) →
  m !! n = None →
  (marshal_all marshal_param (supplied_calls m pre) request).2 = None →
  let q := consume_items marshal_param i m (pre ++ (n, v) :: post)%list request in
  q.1.2 = (marshal_all marshal_param (supplied_calls m pre) request).1 ∧
  q.2 = Some (Exn TypeError (i +:+ " does not have parameter " +:+ n)).
Proof.
  revert m request.
  induction pre as [|[k0 v0] pre IH]; intros m request Hnd Hknown Hn Hok q; subst q.
  - simpl. by rewrite Hn.
  - rewrite <- app_comm_cons, fmap_cons in Hnd. apply NoDup_cons in Hnd as [Hk0 Hnd].
    rewrite fmap_cons in Hknown.
    destruct (Hknown k0) as [p Hp]; [apply elem_of_cons; by left|].
    assert (Hpre : k0 ∉ pre.*1).
    { intros Hin. apply Hk0. rewrite fmap_app. apply elem_of_app. by left. }
    assert (Hne : k0 ≠ n).
    { intros ->. apply Hk0. rewrite fmap_app, fmap_cons. apply elem_of_app. right.
      apply elem_of_cons. by left. }
    rewrite (supplied_calls_cons_known m k0 v0 p pre Hp) in Hok |- *.
    rewrite <- app_comm_cons. cbn [consume_items marshal_all] in Hok |- *.
    rewrite Hp.
    destruct (marshal_param p v0 request) as [request1 [e|]]; [discriminate Hok|].
    rewrite <- (supplied_calls_delete m k0 pre Hpre) in Hok |- *.
    apply IH; try done.
    + intros k Hk. rewrite lookup_delete_ne; [apply Hknown; apply elem_of_cons; by right|].
      intros <-. done.
    + by rewrite lookup_delete_ne.
Qed.

(** X20: the arguments are handled in the dict's iteration order and a
    failure is not undone.  If the arguments iterated before the first
    undeclared name are all declared and are marshaled without an
    exception, the call raises the TypeError for that name, and the
    request it leaves behind already holds what marshaling those
    earlier arguments did to it. *)
Theorem construct_params_fails_after_prefix self h request op_kwargs
    (pre post : list (string * pyval)) (n : string) (v : pyval) :
  iteritems op_kwargs = (pre ++ (n, v) :: post)%list →
  (∀ k, k ∈ pre.*1 → is_Some (deref h (params self) !! k)) →
  deref h (params self) !! n = None →
  (marshal_all marshal_param (supplied_calls (deref h (params self)) pre) request).2 =
    None →
  (construct_params marshal_param self h request op_kwargs).2 =
    Some (Exn TypeError ((operation_id self).2 +:+ " does not have parameter " +:+ n)) ∧
  (construct_params marshal_param self h request op_kwargs).1.2 =
    (marshal_all marshal_param (supplied_calls (deref h (params self)) pre) request).1.
Proof.
  intros Hitems Hknown Hn Hok.
  destruct (construct_params_items marshal_param self h request op_kwargs)
    as (Hres & _ & _).
  pose proof (iteritems_NoDup op_kwargs) as Hnd. rewrite Hitems in Hnd, Hres.
  destruct (consume_items_prefix (operation_id self).2 (deref h (params self))
              pre post n v request Hnd Hknown Hn Hok) as [Hreq Hexn].
  rewrite Hexn, Hreq in Hres. injection Hres as Hr1 Hr2. by split.
Qed.

End CallsThatComplete.

Lemma construct_params_nothing_to_marshal_witness :
  (construct_params (H := Sample.canonical_order) Sample.marshal Sample2.quiet
     Sample2.quiet_store Sample.skeleton ∅).1.2 = Sample.skeleton ∧
  (construct_params (H := Sample.canonical_order) Sample.marshal Sample2.quiet
     Sample2.quiet_store Sample.skeleton ∅).2 = None.
Proof.
  assert (Hquiet : map_Forall (λ _ p, required p = false ∧ has_default p = false)
                     (deref Sample2.quiet_store (params Sample2.quiet))).
  { apply map_Forall_to_list. vm_compute. repeat constructor. }
  exact (construct_params_nothing_to_marshal (H := Sample.canonical_order)
           Sample.marshal Sample2.quiet Sample2.quiet_store Sample.skeleton Hquiet).
Defined.

Lemma construct_params_completes_exactly_when_witness :
  (construct_params (H := Sample.canonical_order) Sample2.file_under_params
     Sample.show_pet Sample.show_pet_store Sample.skeleton Sample.petId_only).2 = None ↔
  (∀ k, is_Some (Sample.petId_only !! k) →
        is_Some (deref Sample.show_pet_store (params Sample.show_pet) !! k)) ∧
  (∀ k p, deref Sample.show_pet_store (params Sample.show_pet) !! k = Some p →
          required p = true → is_Some (Sample.petId_only !! k)).
Proof.
  apply (construct_params_completes_exactly_when (H := Sample.canonical_order)
           Sample2.file_under_params Sample.show_pet Sample.show_pet_store
           Sample.skeleton Sample.petId_only).
  intros p v r. reflexivity.
Defined.

Lemma construct_request_returns_exactly_when_witness :
  (∃ request,
     (construct_request (H := Sample.canonical_order) Sample2.file_under_params
        Sample.show_pet Sample.show_pet_store Sample2.petId_and_options).2 =
     Return request) ↔
  (∃ d, default (PDict []) (Sample2.petId_and_options !! "_request_options") = PDict d) ∧
  (∀ k, k ≠ "_request_options" → is_Some (Sample2.petId_and_options !! k) →
        is_Some (deref Sample.show_pet_store (params Sample.show_pet) !! k)) ∧
  (∀ k p, deref Sample.show_pet_store (params Sample.show_pet) !! k = Some p →
          required p = true →
          k ≠ "_request_options" ∧ is_Some (Sample2.petId_and_options !! k)).
Proof.
  apply (construct_request_returns_exactly_when (H := Sample.canonical_order)
           Sample2.file_under_params Sample.show_pet Sample.show_pet_store
           Sample2.petId_and_options).
  intros p v r. reflexivity.
Defined.

Example show_pet_with_options :
  map_to_list <$>
    (match (construct_request (H := Sample.canonical_order) Sample2.file_under_params
              Sample.show_pet Sample.show_pet_store Sample2.petId_and_options).2 with
     | Return request => Some request
     | Raise _ => None
     end) =
  Some [("method", PStr "get"); ("url", PStr "http://petstore.example/v2/pet/{petId}");
        ("headers", PDict [("X-Trace", PStr "1")]);
        ("params", PDict [("limit", PNone); ("petId", PInt 7)])].
Proof. vm_compute. reflexivity. Qed.

Lemma construct_request_skeleton_witness :
  (construct_request (H := Sample.canonical_order) Sample.marshal Sample2.quiet
     Sample2.quiet_store Sample2.options_only).2 =
  Return (<["headers" := PDict [("X-Trace", PStr "1")]]>
           (<["params" := PDict []]>
             (<["url" := PStr "http://petstore.example/v2/pet/{petId}"]>
               (<["method" := PStr "get"]> ∅)))).
Proof.
  assert (Hquiet : map_Forall (λ _ p, required p = false ∧ has_default p = false)
                     (deref Sample2.quiet_store (params Sample2.quiet))).
  { apply map_Forall_to_list. vm_compute. repeat constructor. }
  apply (construct_request_skeleton (H := Sample.canonical_order) Sample.marshal
           Sample2.quiet Sample2.quiet_store Sample2.options_only
           [("headers", PDict [("X-Trace", PStr "1")])]).
  - vm_compute. reflexivity.
  - vm_compute. reflexivity.
  - exact Hquiet.
Defined.

Lemma construct_params_fails_after_prefix_witness :
  (construct_params (H := Sample2.reversed_order) Sample.marshal Sample.show_pet
     Sample.show_pet_store Sample.skeleton Sample2.petId_and_color).2 =
    Some (Exn TypeError "showPet does not have parameter color") ∧
  (construct_params (H := Sample2.reversed_order) Sample.marshal Sample.show_pet
     Sample.show_pet_store Sample.skeleton Sample2.petId_and_color).1.2 !! "url" =
    Some (PStr "http://petstore.example/v2/pet/7").
Proof.
  destruct (construct_params_fails_after_prefix (H := Sample2.reversed_order)
              Sample.marshal Sample.show_pet Sample.show_pet_store Sample.skeleton
              Sample2.petId_and_color [("petId", PInt 7)] [] "color" (PStr "red"))
    as [Hexn Hreq].
  - vm_compute. reflexivity.
  - intros k Hk. apply list_elem_of_singleton in Hk as ->. vm_compute. eexists. reflexivity.
  - vm_compute. reflexivity.
  - vm_compute. reflexivity.
  - split; [exact Hexn|]. rewrite Hreq. vm_compute. reflexivity.
Defined.

(** ** From the response to the result *)

(** X16: when [get_response_spec] returns, it returns one of the declared
    entries, the one under [str(status_code)] or else the one under
    ['default'], and the operation object is as before; when it raises,
    the object differs at most by the memoized operation id. *)
Theorem get_response_spec_returns_declared_entry (status : Z) (op : Operation) :
  (∀ op' entry, get_response_spec status op = (op', Return entry) →
     op' = op ∧
     ∃ response_specs, responses (op_spec op) = Some response_specs ∧
       (response_specs !! PyStr.str_int status = Some entry ∨
        (response_specs !! PyStr.str_int status = None ∧
         response_specs !! "default" = Some entry))) ∧
  (∀ op' e, get_response_spec status op = (op', Raise e) → memoized_from op op').
Proof.
  unfold get_response_spec.
  destruct (responses (op_spec op)) as [response_specs|].
  - destruct (response_specs !! PyStr.str_int status) as [exact|] eqn:Hexact.
    + split.
      * intros op' entry [= <- <-]. split; [done|]. exists response_specs. by auto.
      * intros op' e Hraise. discriminate Hraise.
    + destruct (response_specs !! "default") as [dflt|] eqn:Hdflt.
      * split.
        -- intros op' entry [= <- <-]. split; [done|]. exists response_specs. by auto.
        -- intros op' e Hraise. discriminate Hraise.
      * unfold Operation_repr. destruct (operation_id op) as [op1 i] eqn:Hid. split.
        -- intros op' entry Hret. discriminate Hret.
        -- intros op' e [= <- _]. right. by rewrite Hid.
  - split.
    + intros op' entry Hret. discriminate Hret.
    + intros op' e [= <- _]. by left.
Qed.

Section ResponseToResult.

Context {R : Type} `{ResponseLike R}.
Variable unmarshal_schema_object : Spec → pyval → pyval → result pyval.

(** X17: when no response specification can be resolved, the body of
    the response is not decoded: [handle_response] hands the response
    back as it came.  It raises an AttributeError when the operation
    declares no ['responses'] at all, and a SwaggerError when neither
    the status code nor ['default'] is declared. *)
Theorem handle_response_unresolved (r : R) (op : Operation) :
  (responses (op_spec op) = None →
   handle_response unmarshal_schema_object (RequestsResponse r) op =
     (op, Some r,
      Raise (Exn AttributeError "'NoneType' object has no attribute 'get'"))) ∧
  (∀ response_specs, responses (op_spec op) = Some response_specs →
     response_specs !! PyStr.str_int (status_code r) = None →
     response_specs !! "default" = None →
     ∃ msg, handle_response unmarshal_schema_object (RequestsResponse r) op =
              ((operation_id op).1, Some r, Raise (Exn SwaggerError msg))).
Proof.
  unfold handle_response, get_response_spec. split.
  - intros ->. done.
  - intros response_specs -> -> ->. unfold Operation_repr.
    destruct (operation_id op) as [op1 i]. simpl. by eexists.
Qed.

(** X18: for a resolved entry without ['schema'] the result is
    [(status_code, None)] and the response is handed back undecoded;
    with a ['schema'] the body is decoded once and the value comes from
    [unmarshal_schema_object] on that schema.  The operation object is
    unchanged in both cases. *)
Theorem handle_response_resolved (r : R) (op : Operation)
    (response_specs : gmap string response_spec) (entry : response_spec) :
  responses (op_spec op) = Some response_specs →
  (response_specs !! PyStr.str_int (status_code r) = Some entry ∨
   (response_specs !! PyStr.str_int (status_code r) = None ∧
    response_specs !! "default" = Some entry)) →
  (schema entry = None →
   handle_response unmarshal_schema_object (RequestsResponse r) op =
     (op, Some r, Return (status_code r, PNone))) ∧
  (∀ content_spec, schema entry = Some content_spec →
   (handle_response unmarshal_schema_object (RequestsResponse r) op).1 =
     (op, Some (json r).1) ∧
   (handle_response unmarshal_schema_object (RequestsResponse r) op).2 =
     match (json r).2 with
     | Raise e => Raise e
     | Return content_value =>
         match unmarshal_schema_object (swagger_spec op) content_spec content_value with
         | Return value => Return (status_code r, value)
         | Raise e => Raise e
         end
     end).
Proof.
  intros Hr Hentry.
  assert (Hspec : get_response_spec (status_code r) op = (op, Return entry)).
  { unfold get_response_spec. rewrite Hr.
    destruct Hentry as [->|[-> ->]]; done. }
  rewrite (handle_response_requests unmarshal_schema_object r op entry Hspec).
  unfold unmarshal_response. split.
  - intros ->. done.
  - intros content_spec ->. pose proof (status_code_json r) as Hs.
    destruct (json r) as [r1 [content_value|e]]; simpl in *; [|done].
    by rewrite Hs.
Qed.

Lemma unmarshal_response_status (sp : Spec) (rs : response_spec) (r : R)
    (x : Z * pyval) :
  (unmarshal_response unmarshal_schema_object sp rs r).2 = Return x →
  x.1 = status_code r.
Proof.
  unfold unmarshal_response. destruct (schema rs) as [content_spec|].
  - pose proof (status_code_json r) as Hs.
    destruct (json r) as [r1 [content_value|e]]; simpl in *; [|done].
    destruct (unmarshal_schema_object sp content_spec content_value); [|done].
    by intros [= <-].
  - by intros [= <-].
Qed.

(** X19: whatever [handle_response] returns for a [requests] Response
    is a pair whose first component is the status code of that
    response. *)
Theorem handle_response_status (r : R) (op : Operation) (x : Z * pyval) :
  (handle_response unmarshal_schema_object (RequestsResponse r) op).2 = Return x →
  x.1 = status_code r.
Proof.
  unfold handle_response.
  destruct (get_response_spec (status_code r) op) as [op1 [rs|e]]; [|done].
  pose proof (unmarshal_response_status (swagger_spec op1) rs r x) as Hpair.
  destruct (unmarshal_response unmarshal_schema_object (swagger_spec op1) rs r)
    as [r1 res].
  simpl in *. apply Hpair.
Qed.

End ResponseToResult.

Lemma get_response_spec_returns_declared_entry_witness :
  Sample.get_pet = Sample.get_pet ∧
  ∃ response_specs, responses (op_spec Sample.get_pet) = Some response_specs ∧
    (response_specs !! PyStr.str_int 404 = Some {| schema := None |} ∨
     (response_specs !! PyStr.str_int 404 = None ∧
      response_specs !! "default" = Some {| schema := None |})).
Proof.
  apply (proj1 (get_response_spec_returns_declared_entry 404 Sample.get_pet)
           Sample.get_pet {| schema := None |}).
  vm_compute. reflexivity.
Defined.

Lemma handle_response_unresolved_witness :
  ∃ msg, handle_response Sample.unmarshal (RequestsResponse Sample2.teapot_response)
           Sample.get_pet_bare =
           ((operation_id Sample.get_pet_bare).1, Some Sample2.teapot_response,
            Raise (Exn SwaggerError msg)).
Proof.
  apply (proj2 (handle_response_unresolved Sample.unmarshal Sample2.teapot_response
                  Sample.get_pet_bare) Sample.only_200);
    vm_compute; reflexivity.
Defined.

Lemma handle_response_resolved_witness :
  handle_response Sample.unmarshal (RequestsResponse Sample.not_found_response)
    Sample.get_pet =
    (Sample.get_pet, Some Sample.not_found_response, Return (404%Z, PNone)).
Proof.
  refine (proj1 (handle_response_resolved Sample.unmarshal Sample.not_found_response
                   Sample.get_pet Sample.pet_responses {| schema := None |} _ _) _).
  - reflexivity.
  - right. split; vm_compute; reflexivity.
  - reflexivity.
Defined.

Lemma handle_response_status_witness :
  (200%Z, Sample.pet_7).1 = status_code Sample.ok_response.
Proof.
  apply (handle_response_status Sample.unmarshal Sample.ok_response Sample.get_pet
           (200%Z, Sample.pet_7)).
  vm_compute. reflexivity.
Defined.

(** ** Which exception a failing call raises *)

Section FailingCalls.

Context `{DictOrder}.
Variable marshal_param : Param → pyval → Request → Request * option exn.

Implicit Types (h : store) (m : gmap string Param) (request : Request)
  (self : Operation) (kwargs op_kwargs : gmap string pyval)
  (items pre post : list (string * pyval)).

Lemma first_undeclared_split m items :
  (∃ k, k ∈ items.*1 ∧ m !! k = None) →
  ∃ pre n v post,
    items = (pre ++ (n, v) :: post)%list ∧
    (∀ k, k ∈ pre.*1 → is_Some (m !! k)) ∧ m !! n = None.
Proof.
  induction items as [|[k0 v0] items IH]; intros (k & Hk & Hm).
  - by apply elem_of_nil in Hk.
  - destruct (m !! k0) as [p|] eqn:Hk0.
    + rewrite fmap_cons in Hk. apply elem_of_cons in Hk as [->|Hk]; [simpl in *; congruence|].
      destruct IH as (pre & n & v & post & -> & Hpre & Hn); [by exists k|].
      exists ((k0, v0) :: pre), n, v, post. split; [done|]. split; [|done].
      intros k' Hk'. rewrite fmap_cons in Hk'.
      apply elem_of_cons in Hk' as [->|Hk']; [by eexists|by apply Hpre].
    + exists [], k0, v0, items. split; [done|]. split; [|done].
      intros k' Hk'. by apply elem_of_nil in Hk'.
Qed.

Lemma consume_items_split (i : string) m pre post (n : string) (v : pyval) request :
  NoDup ((pre ++ (n, v) :: post)%list).*1 →
  (∀ k, k ∈ pre.*1 → is_Some (m !! k)) →
  m !! n = None →
  let run := marshal_all marshal_param (supplied_calls m pre) request in
  let q := consume_items marshal_param i m (pre ++ (n, v) :: post)%list request in
  q.1.2 = run.1 ∧
  q.2 = Some match run.2 with
             | Some e => e
             | None => Exn TypeError (i +:+ " does not have parameter " +:+ n)
             end.
Proof.
  revert m request.
  induction pre as [|[k0 v0] pre IH]; intros m request Hnd Hknown Hn run q;
    subst run q.
  - simpl. by rewrite Hn.
  - rewrite <- app_comm_cons, fmap_cons in Hnd. apply NoDup_cons in Hnd as [Hk0 Hnd].
    rewrite fmap_cons in Hknown.
    destruct (Hknown k0) as [p Hp]; [apply elem_of_cons; by left|].
    assert (Hpre : k0 ∉ pre.*1).
    { intros Hin. apply Hk0. rewrite fmap_app. apply elem_of_app. by left. }
    assert (Hne : k0 ≠ n).
    { intros ->. apply Hk0. rewrite fmap_app, fmap_cons. apply elem_of_app. right.
      apply elem_of_cons. by left. }
    rewrite (supplied_calls_cons_known m k0 v0 p pre Hp).
    rewrite <- app_comm_cons. cbn [consume_items marshal_all].
    rewrite Hp.
    destruct (marshal_param p v0 request) as [request1 [e|]]; [done|].
    rewrite <- (supplied_calls_delete m k0 pre Hpre).
    apply IH; try done.
    + intros k Hk. rewrite lookup_delete_ne; [apply Hknown; apply elem_of_cons; by right|].
      intros <-. done.
    + by rewrite lookup_delete_ne.
Qed.

Lemma first_required_split (remaining : list Param) (p : Param) :
  p ∈ remaining → required p = true →
  ∃ before p' after,
    remaining = (before ++ p' :: after)%list ∧
    (∀ q, q ∈ before → required q = false) ∧ required p' = true.
Proof.
  induction remaining as [|p0 remaining IH]; intros Hin Hreq.
  - by apply elem_of_nil in Hin.
  - destruct (required p0) eqn:Hr0.
    + exists [], p0, remaining. split; [done|]. split; [|done].
      intros q Hq. by apply elem_of_nil in Hq.
    + apply elem_of_cons in Hin as [->|Hin]; [congruence|].
      destruct (IH Hin Hreq) as (before & p' & after & -> & Hb & Hp').
      exists (p0 :: before), p', after. split; [done|]. split; [|done].
      intros q Hq. apply elem_of_cons in Hq as [->|Hq]; [done|by apply Hb].
Qed.

Lemma check_remaining_split (before after : list Param) (p' : Param) request :
  (∀ q, q ∈ before → required q = false) →
  required p' = true →
  let run := marshal_all marshal_param (default_calls before) request in
  check_remaining marshal_param (before ++ p' :: after)%list request =
    (run.1,
     Some match run.2 with
          | Some e => e
          | None => Exn TypeError (name p' +:+ " is a required parameter")
          end).
Proof.
  intros Hb Hp'. revert request.
  induction before as [|p0 before IH]; intros request run; subst run.
  - simpl. by rewrite Hp'.
  - assert (Hr0 : required p0 = false) by (apply Hb; apply elem_of_cons; by left).
    assert (Hrest : ∀ q, q ∈ before → required q = false).
    { intros q Hq. apply Hb. apply elem_of_cons. by right. }
    rewrite <- app_comm_cons, (default_calls_cons marshal_param).
    cbn [check_remaining]. rewrite Hr0. simpl negb. simpl andb.
    destruct (has_default p0); cbv iota.
    + cbn [marshal_all].
      destruct (marshal_param p0 PNone request) as [request1 [e|]]; [done|].
      by apply IH.
    + by apply IH.
Qed.

Lemma remaining_unsupplied m op_kwargs (left_over : gmap string Param) :
  (∀ k, left_over !! k =
        if decide (k ∈ (iteritems op_kwargs).*1) then None else m !! k) →
  left_over = unsupplied m op_kwargs.
Proof.
  intros Hrem. apply map_eq. intros k. apply option_eq. intros p.
  rewrite lookup_unsupplied, Hrem.
  case_decide as Hc; rewrite elem_of_iteritems_keys in Hc.
  - split; [done|]. intros [_ Hk]. rewrite Hk in Hc. by destruct Hc.
  - split; [|tauto]. intros Hmk. split; [done|].
    destruct (op_kwargs !! k); [|done]. exfalso. apply Hc. by eexists.
Qed.

Lemma construct_params_undeclared self h request op_kwargs (n : string) :
  is_Some (op_kwargs !! n) →
  deref h (params self) !! n = None →
  ∃ pre n' v post,
    iteritems op_kwargs = (pre ++ (n', v) :: post)%list ∧
    (∀ k, k ∈ pre.*1 → is_Some (deref h (params self) !! k)) ∧
    deref h (params self) !! n' = None ∧
    (construct_params marshal_param self h request op_kwargs).1.2 =
      (marshal_all marshal_param
         (supplied_calls (deref h (params self)) pre) request).1 ∧
    (construct_params marshal_param self h request op_kwargs).2 =
      Some match (marshal_all marshal_param
                    (supplied_calls (deref h (params self)) pre) request).2 with
           | Some e => e
           | None =>
               Exn TypeError
                 ((operation_id self).2 +:+ " does not have parameter " +:+ n')
           end.
Proof.
  intros Hn Hm.
  destruct (first_undeclared_split (deref h (params self)) (iteritems op_kwargs))
    as (pre & n' & v & post & Hitems & Hpre & Hn').
  { exists n. split; [by apply elem_of_iteritems_keys|done]. }
  exists pre, n', v, post. split; [done|]. split; [done|]. split; [done|].
  destruct (construct_params_items marshal_param self h request op_kwargs)
    as (Hres & _ & _).
  pose proof (iteritems_NoDup op_kwargs) as Hnd. rewrite Hitems in Hnd, Hres.
  destruct (consume_items_split (operation_id self).2 (deref h (params self))
              pre post n' v request Hnd Hpre Hn') as [Hreq Hexn].
  rewrite Hexn, Hreq in Hres. injection Hres as Hr1 Hr2. by split.
Qed.

(** C3 (amended): when the call arguments contain a name that is no key
    of [self.params], [construct_params] raises.  The arguments
    iterated before the first such name are all declared and are
    marshaled first; if [marshal_param] raises on one of them its
    exception is the one raised, otherwise the exception is the
    TypeError [<operation id> does not have parameter <name>] for that
    first undeclared name.  [__call__] raises the exception of
    [construct_params] on the initial request, or an AttributeError
    when the request options are no dict: no future is created. *)
Theorem construct_params_unknown_kwarg self h request op_kwargs (n : string) :
  is_Some (op_kwargs !! n) →
  deref h (params self) !! n = None →
  (∃ pre n' v post,
     iteritems op_kwargs = (pre ++ (n', v) :: post)%list ∧
     (∀ k, k ∈ pre.*1 → is_Some (deref h (params self) !! k)) ∧
     deref h (params self) !! n' = None ∧
     (construct_params marshal_param self h request op_kwargs).1.2 =
       (marshal_all marshal_param
          (supplied_calls (deref h (params self)) pre) request).1 ∧
     (construct_params marshal_param self h request op_kwargs).2 =
       Some match (marshal_all marshal_param
                     (supplied_calls (deref h (params self)) pre) request).2 with
            | Some e => e
            | None =>
                Exn TypeError
                  ((operation_id self).2 +:+ " does not have parameter " +:+ n')
            end) ∧
  (n ≠ "_request_options" →
   (∀ d, default (PDict []) (op_kwargs !! "_request_options") = PDict d →
      ∃ e, (construct_params marshal_param (operation_id self).1 h
              (initial_request self (default (PDict []) (assoc_get d "headers")))
              (delete "_request_options" op_kwargs)).2 = Some e ∧
           (call marshal_param self h op_kwargs).2 = Raise e) ∧
   ((∀ d, default (PDict []) (op_kwargs !! "_request_options") ≠ PDict d) →
      ∃ e, (call marshal_param self h op_kwargs).2 = Raise e ∧
           exn_cls e = AttributeError)).
Proof.
  intros Hn Hm. split; [by apply (construct_params_undeclared self h request op_kwargs n)|].
  intros Hne.
  pose proof (memoized_from_attrs self (operation_id self).1 (or_intror eq_refl))
    as (Hs & Hp & Hh & _ & Hparams & _).
  unfold call. destruct (operation_id self) as [self0 i]. simpl in *.
  unfold construct_request. rewrite Hs, Hp, Hh. split.
  - intros d ->. simpl. fold (initial_request self (default (PDict []) (assoc_get d "headers"))).
    destruct (construct_params_undeclared self0 h
                (initial_request self (default (PDict []) (assoc_get d "headers")))
                (delete "_request_options" op_kwargs) n)
      as (pre & n' & v & post & _ & _ & _ & _ & Hexn).
    { by rewrite lookup_delete_ne. }
    { by rewrite Hparams. }
    destruct (construct_params marshal_param self0 h _ _)
      as [[[self1 h1] request1] res].
    simpl in Hexn. subst res. simpl. by eexists.
  - intros Hnd.
    destruct (default (PDict []) (op_kwargs !! "_request_options")) as [| | | | |d];
      simpl; try (eexists; split; reflexivity).
    by destruct (Hnd d).
Qed.

(** C4 (amended): when every supplied name is a key of [self.params]
    and some required parameter is not supplied, [construct_params]
    raises.  The supplied arguments are marshaled first, then the
    defaults of the parameters met, in iteration order of the
    parameters not supplied, before the first required one; if
    [marshal_param] raises on one of these calls its exception is the
    one raised, otherwise the exception is the TypeError
    [<name> is a required parameter] for that first required
    parameter. *)
Theorem construct_params_missing_required self h request op_kwargs
    (n : string) (p : Param) :
  (∀ k, is_Some (op_kwargs !! k) → is_Some (deref h (params self) !! k)) →
  deref h (params self) !! n = Some p →
  required p = true →
  op_kwargs !! n = None →
  ∃ before p' after,
    itervalues (unsupplied (deref h (params self)) op_kwargs) =
      (before ++ p' :: after)%list ∧
    (∀ q, q ∈ before → required q = false) ∧
    required p' = true ∧
    (∃ n', deref h (params self) !! n' = Some p' ∧ op_kwargs !! n' = None) ∧
    (construct_params marshal_param self h request op_kwargs).1.2 =
      (marshal_all marshal_param
         (supplied_calls (deref h (params self)) (iteritems op_kwargs) ++
          default_calls before)%list request).1 ∧
    (construct_params marshal_param self h request op_kwargs).2 =
      Some match (marshal_all marshal_param
                    (supplied_calls (deref h (params self)) (iteritems op_kwargs) ++
                     default_calls before)%list request).2 with
           | Some e => e
           | None => Exn TypeError (name p' +:+ " is a required parameter")
           end.
Proof.
  intros Hknown Hp Hreq Hn.
  assert (Hin : p ∈ itervalues (unsupplied (deref h (params self)) op_kwargs)).
  { apply elem_of_itervalues. exists n. by apply lookup_unsupplied. }
  destruct (first_required_split _ p Hin Hreq)
    as (before & p' & after & Hsplit & Hbefore & Hp').
  exists before, p', after. split; [done|]. split; [done|]. split; [done|]. split.
  { assert (Hin' : p' ∈ itervalues (unsupplied (deref h (params self)) op_kwargs)).
    { rewrite Hsplit. apply elem_of_app. right. apply elem_of_cons. by left. }
    apply elem_of_itervalues in Hin' as [n' Hn'].
    exists n'. by apply lookup_unsupplied. }
  destruct (construct_params_items marshal_param self h request op_kwargs)
    as (Hres & _ & _).
  destruct (consume_items_known marshal_param (operation_id self).2
              (deref h (params self)) (iteritems op_kwargs) request
              (iteritems_NoDup op_kwargs)) as [Hq Hrem].
  { intros k Hk. by apply Hknown, elem_of_iteritems_keys. }
  set (q := consume_items marshal_param (operation_id self).2
              (deref h (params self)) (iteritems op_kwargs) request) in *.
  rewrite marshal_all_app, <- Hq.
  destruct (q.2) as [e|] eqn:Hq2.
  - simpl. injection Hres as Hr1 Hr2. by split.
  - rewrite (remaining_unsupplied _ _ _ (Hrem eq_refl)), Hsplit in Hres.
    rewrite (check_remaining_split before after p' q.1.2 Hbefore Hp') in Hres.
    injection Hres as Hr1 Hr2. by split.
Qed.

End FailingCalls.

(** C3, as stated, fails in the presence of a marshaler that raises: the
    call passes a list for [petId] and the undeclared [color]; where
    [petId] is iterated first, the marshaler's exception is raised and
    no TypeError. *)
Lemma construct_params_marshaler_raises_first :
  is_Some (Sample2.list_petId_and_color !! "color") ∧
  deref Sample.show_pet_store (params Sample.show_pet) !! "color" = None ∧
  (construct_params (H := Sample2.reversed_order) Sample2.strict_marshal Sample.show_pet
     Sample.show_pet_store Sample.skeleton Sample2.list_petId_and_color).2 =
    Some (Exn (OtherError "ValidationError") "petId") ∧
  ¬ ∃ msg,
    (construct_params (H := Sample2.reversed_order) Sample2.strict_marshal Sample.show_pet
       Sample.show_pet_store Sample.skeleton Sample2.list_petId_and_color).2 =
      Some (Exn TypeError msg).
Proof.
  assert (Hr : (construct_params (H := Sample2.reversed_order) Sample2.strict_marshal
                  Sample.show_pet Sample.show_pet_store Sample.skeleton
                  Sample2.list_petId_and_color).2 =
               Some (Exn (OtherError "ValidationError") "petId")).
  { vm_compute. reflexivity. }
  split; [vm_compute; by eexists|]. split; [vm_compute; reflexivity|].
  split; [exact Hr|]. rewrite Hr. intros [msg Hmsg]. discriminate Hmsg.
Qed.

Lemma construct_params_unknown_kwarg_witness :
  is_Some (Sample.color_only !! "color") ∧
  deref Sample.show_pet_store (params Sample.show_pet) !! "color" = None ∧
  (∃ e, (construct_params (H := Sample.canonical_order) Sample.marshal
           (operation_id Sample.show_pet).1 Sample.show_pet_store
           (initial_request Sample.show_pet (default (PDict []) (assoc_get [] "headers")))
           (delete "_request_options" Sample.color_only)).2 = Some e ∧
        (call (H := Sample.canonical_order) Sample.marshal Sample.show_pet
           Sample.show_pet_store Sample.color_only).2 = Raise e).
Proof.
  assert (Hk : is_Some (Sample.color_only !! "color")).
  { exists (PStr "red"). vm_compute. reflexivity. }
  assert (Hm : deref Sample.show_pet_store (params Sample.show_pet) !! "color" = None).
  { vm_compute. reflexivity. }
  split; [exact Hk|]. split; [exact Hm|].
  destruct (construct_params_unknown_kwarg (H := Sample.canonical_order) Sample.marshal
              Sample.show_pet Sample.show_pet_store Sample.skeleton Sample.color_only
              "color" Hk Hm) as [_ Hcall].
  destruct Hcall as [Hdict _]; [discriminate|].
  apply (Hdict []). vm_compute. reflexivity.
Defined.

Lemma construct_params_missing_required_witness :
  ∃ before p' after,
    itervalues (H := Sample.canonical_order)
      (unsupplied (deref Sample.show_pet_store (params Sample.show_pet))
         Sample.limit_only) = (before ++ p' :: after)%list ∧
    (∀ q, q ∈ before → required q = false) ∧
    required p' = true ∧
    (∃ n', deref Sample.show_pet_store (params Sample.show_pet) !! n' = Some p' ∧
           Sample.limit_only !! n' = None) ∧
    (construct_params (H := Sample.canonical_order) Sample.marshal Sample.show_pet
       Sample.show_pet_store Sample.skeleton Sample.limit_only).1.2 =
      (marshal_all Sample.marshal
         (supplied_calls (deref Sample.show_pet_store (params Sample.show_pet))
            (iteritems (DictOrder := Sample.canonical_order) Sample.limit_only) ++
          default_calls before)%list Sample.skeleton).1 ∧
    (construct_params (H := Sample.canonical_order) Sample.marshal Sample.show_pet
       Sample.show_pet_store Sample.skeleton Sample.limit_only).2 =
      Some match (marshal_all Sample.marshal
                    (supplied_calls (deref Sample.show_pet_store (params Sample.show_pet))
                       (iteritems (DictOrder := Sample.canonical_order)
                          Sample.limit_only) ++
                     default_calls before)%list Sample.skeleton).2 with
           | Some e => e
           | None => Exn TypeError (name p' +:+ " is a required parameter")
           end.
Proof.
  apply (construct_params_missing_required (H := Sample.canonical_order) Sample.marshal
           Sample.show_pet Sample.show_pet_store Sample.skeleton Sample.limit_only
           "petId" (Param_new Sample.petstore Sample.petId_in_path)).
  - intros k Hk. destruct (decide (k = "limit")) as [->|Hne].
    + vm_compute. eexists. reflexivity.
    + unfold Sample.limit_only in Hk.
      rewrite lookup_insert_ne, lookup_empty in Hk by done. by destruct Hk.
  - vm_compute. reflexivity.
  - reflexivity.
  - vm_compute. reflexivity.
Defined.
